(** * QuasiPiler reader: a shallow embedding of [src/src/reader.cpp]

    The reader is a buffered cursor over a file or an in-memory string that
    classifies lexemes.  The C++ object is modelled as a record, each method
    as a function from the record to an outcome that carries the record the
    call leaves behind, and each [throw] as an outcome of its own. *)

From Stdlib Require Import List Ascii ZArith Lia Bool Arith.
From Stdlib Require String.
Import ListNotations String.StringSyntax.
Delimit Scope string_scope with string.

Local Open Scope char_scope.
Local Open Scope list_scope.

(** ** Bytes and the <cctype> predicates (the "C" locale) *)

Abbreviation byte := ascii.

Definition NUL : byte := "000".
Definition LF : byte := "010".
Definition dquote : byte := "034".
Definition squote : byte := "'".
Definition backslash : byte := "\".

Definition in_range (lo hi : nat) (c : byte) : bool :=
  (lo <=? nat_of_ascii c)%nat && (nat_of_ascii c <=? hi)%nat.

Definition isdigit (c : byte) : bool := in_range 48 57 c.
Definition isalpha (c : byte) : bool := in_range 65 90 c || in_range 97 122 c.
Definition isalnum (c : byte) : bool := isalpha c || isdigit c.
Definition isspace (c : byte) : bool := (c =? " ") || in_range 9 13 c.
Definition isxdigit (c : byte) : bool :=
  isdigit c || in_range 65 70 c || in_range 97 102 c.

(** [std::stoi(hex, nullptr, 16)] on a run of hexadecimal digits. *)
Definition hex_value (c : byte) : Z :=
  let n := Z.of_nat (nat_of_ascii c) in
  if isdigit c then (n - 48)%Z
  else if in_range 97 102 c then (n - 87)%Z
  else (n - 55)%Z.

Definition stoi16 (hex : list byte) : Z :=
  fold_left (fun acc c => (acc * 16 + hex_value c)%Z) hex 0%Z.

Definition byte_of_Z (z : Z) : byte := ascii_of_N (Z.to_N z).

(** [std::wstring_convert<std::codecvt_utf8<char32_t>, char32_t>::to_bytes]
    on one code point, a function of the standard library: the UTF-8
    encoding.  A code point read from four hexadecimal digits is below
    0x10000, so at most three bytes come out.  As the specification has it,
    the code unit is encoded as it stands, a surrogate as any other. *)

Definition to_bytes (cp : Z) : list byte :=
  if (cp <? 128)%Z then [byte_of_Z cp]
  else if (cp <? 2048)%Z then
    [byte_of_Z (Z.lor 192 (Z.shiftr cp 6));
     byte_of_Z (Z.lor 128 (Z.land cp 63))]
  else if (cp <? 65536)%Z then
    [byte_of_Z (Z.lor 224 (Z.shiftr cp 12));
     byte_of_Z (Z.lor 128 (Z.land (Z.shiftr cp 6) 63));
     byte_of_Z (Z.lor 128 (Z.land cp 63))]
  else
    [byte_of_Z (Z.lor 240 (Z.shiftr cp 18));
     byte_of_Z (Z.lor 128 (Z.land (Z.shiftr cp 12) 63));
     byte_of_Z (Z.lor 128 (Z.land (Z.shiftr cp 6) 63));
     byte_of_Z (Z.lor 128 (Z.land cp 63))].

(** ** [std::ifstream], as far as the reader uses it

    The stream is the file's bytes, a get position and the two state bits
    the reader can observe.  [read] follows the unformatted input function:
    it does nothing but set [failbit] on a stream that is not good, and sets
    [eofbit] and [failbit] when fewer than [n] bytes were there. *)
Module ifstream.

Record t := mk {
  is_open : bool;
  origin : list byte;
  gpos : nat;
  eofbit : bool;
  failbit : bool
}.

(** A default-constructed stream: no file behind it. *)
Definition closed : t := mk false [] 0 false false.

(** [open(path, in | binary)] on a file that exists. *)
Definition opened (file : list byte) : t := mk true file 0 false false.

Definition good (f : t) : bool := negb (eofbit f) && negb (failbit f).
Definition eof (f : t) : bool := eofbit f.

Definition tellg (f : t) : Z :=
  if failbit f then (-1)%Z else Z.of_nat (gpos f).

(** [seekg(pos, beg)]: clears [eofbit] first, then moves unless the stream
    has failed. *)
Definition seekg (f : t) (pos : Z) : t :=
  if failbit f then mk (is_open f) (origin f) (gpos f) false true
  else if (pos <? 0)%Z then mk (is_open f) (origin f) (gpos f) false true
  else mk (is_open f) (origin f) (Z.to_nat pos) false false.

(** [read(s, n)]: the bytes extracted ([gcount] is their number) and the
    stream afterwards. *)
Definition read (f : t) (n : Z) : list byte * t :=
  if good f then
    let got := firstn (Z.to_nat n) (skipn (gpos f) (origin f)) in
    let short := negb (Z.of_nat (length got) =? n)%Z in
    (got, mk (is_open f) (origin f) (gpos f + length got) short short)
  else ([], mk (is_open f) (origin f) (gpos f) (eofbit f) true).

End ifstream.

(** ** [std::string] operations on the window *)

(** What [ifs.read(buffer.data(), n)] leaves in the string.  The bytes are
    written from [data()] on, and the call does not change the string's
    size: the bytes below [size()] are overwritten, the others fall outside
    the string's value (the reader never sizes its window before reading
    into it).  This is what the call leaves as long as the bytes written
    stay inside the storage the string owns; a longer read runs over the
    members declared after [buffer] (reader.hpp:108-112), which no value of
    the model describes: see [small_reads]. *)
Definition store (buffer got : list byte) : list byte :=
  firstn (length buffer) got ++ skipn (length got) buffer.

(** [buffer.resize(n)]: truncates, or appends value-initialised bytes. *)
Definition resize (buffer : list byte) (n : nat) : list byte :=
  firstn n buffer ++ repeat NUL (n - length buffer).

(** ** Tokens *)

Module token_kind.
Inductive t :=
| eof | open_bracket | close_bracket | separator | keyword | string
| whitespace | integer | floating | special_character.

Definition eqb (a b : t) : bool :=
  match a, b with
  | eof, eof | open_bracket, open_bracket | close_bracket, close_bracket
  | separator, separator | keyword, keyword | string, string
  | whitespace, whitespace | integer, integer | floating, floating
  | special_character, special_character => true
  | _, _ => false
  end.
End token_kind.

Module token.
Record t := mk { kind : token_kind.t; line : Z; col : Z }.
End token.

(** ** The reader object

    [col] and [line] are [int] in the source and integers here: the two
    agree as long as no increment leaves the range of [int], which
    [position_fits] bounds. *)

Record reader := mk_reader {
  ifs : ifstream.t;
  buffer : list byte;
  max_buffer_size : Z;
  offset : Z;
  col : Z;
  line : Z;
  shift : nat
}.

Definition set_shift (r : reader) (s : nat) : reader :=
  mk_reader (ifs r) (buffer r) (max_buffer_size r) (offset r) (col r) (line r) s.
Definition set_col (r : reader) (c : Z) : reader :=
  mk_reader (ifs r) (buffer r) (max_buffer_size r) (offset r) c (line r) (shift r).
Definition set_line (r : reader) (l : Z) : reader :=
  mk_reader (ifs r) (buffer r) (max_buffer_size r) (offset r) (col r) l (shift r).
Definition set_ifs (r : reader) (f : ifstream.t) : reader :=
  mk_reader f (buffer r) (max_buffer_size r) (offset r) (col r) (line r) (shift r).

Definition INT_MAX : Z := 2147483647.
Definition INT_MIN : Z := -2147483648.

(** The position of [r] is an [int] pair and stays one over [n] more bytes:
    a byte increments [col] once and [line] at most once, and a newline puts
    [col] back to -1 or 0 first. *)
Definition position_fits (r : reader) (n : nat) : Prop :=
  (INT_MIN <= line r)%Z /\ (INT_MIN <= col r)%Z /\
  (line r + Z.of_nat n <= INT_MAX)%Z /\ (col r + Z.of_nat n <= INT_MAX)%Z /\
  (Z.of_nat n <= INT_MAX)%Z.

(** The storage an empty [std::string] owns is its inline buffer: 15 bytes
    and the terminator. *)
Definition inline_capacity : Z := 15.

(** A reader on [file] with chunk size [buffer_size] never reads more than
    the inline buffer holds: a read extracts at most the chunk size and at
    most what the file has. *)
Definition fits_inline (file : list byte) (buffer_size : Z) : Prop :=
  (Z.min buffer_size (Z.of_nat (length file)) <= inline_capacity)%Z.

(** The same of a reader; neither the chunk size nor the file changes after
    construction.  On these readers the window is all the memory a read
    writes, and [refill_buffer] below is what the code does. *)
Definition small_reads (r : reader) : Prop :=
  fits_inline (ifstream.origin (ifs r)) (max_buffer_size r).

(** The messages handed to [throw_message], one constructor each. *)
Inductive error :=
| leading_zeros_are_not_allowed
| expected_digit
| expected_digit_after_decimal
| expected_digit_after_exponent
| invalid_Unicode_escape_sequence
| invalid_escape_sequence
| missing_closing_quote
| position_is_out_of_range.

Definition NumberFormatError (e : error) : bool :=
  match e with
  | leading_zeros_are_not_allowed | expected_digit
  | expected_digit_after_decimal | expected_digit_after_exponent => true
  | _ => false
  end.

Definition StringError (e : error) : bool :=
  match e with
  | invalid_Unicode_escape_sequence | invalid_escape_sequence
  | missing_closing_quote => true
  | _ => false
  end.

Definition SeekError (e : error) : bool :=
  match e with position_is_out_of_range => true | _ => false end.

(** What a call does: it returns a value, or throws, and either way leaves a
    reader behind; [OutOfFuel] is a loop that was not given enough steps. *)
Inductive outcome (A : Type) :=
| Val (a : A) (r : reader)
| Throw (e : error) (r : reader)
| OutOfFuel.
Arguments Val {A} a r.
Arguments Throw {A} e r.
Arguments OutOfFuel {A}.

Definition bind {A B : Type} (m : outcome A) (k : A -> reader -> outcome B)
  : outcome B :=
  match m with
  | Val a r => k a r
  | Throw e r => Throw e r
  | OutOfFuel => OutOfFuel
  end.

Notation "'do' x , r <- m ; k" := (bind m (fun x r => k))
  (at level 10, x pattern, r name, m at level 100, k at level 200).

(** *** Cursor *)

Definition valid (r : reader) : bool :=
  negb (Nat.eqb (length (buffer r)) 0) && (shift r <? length (buffer r))%nat.

(** [buffer[shift]]; at [shift == size()] a [std::string] yields the
    terminating NUL. *)
Definition peek (r : reader) : byte := nth (shift r) (buffer r) NUL.

(** [refill_buffer()]: nothing when no file is open or the stream is at its
    end; otherwise one read into the window as it stands, which is then cut
    or padded to the bytes read when they are fewer than the chunk size.
    The chunk size and the position are those the call began with, which
    is the code on readers with [small_reads]: there no read reaches
    them. *)
Definition refill_buffer (r : reader) : reader :=
  if negb (ifstream.is_open (ifs r)) || ifstream.eof (ifs r) then r
  else
    let off := ifstream.tellg (ifs r) in
    let '(got, f) := ifstream.read (ifs r) (max_buffer_size r) in
    let stored := store (buffer r) got in
    let read_bytes := Z.of_nat (length got) in
    let window :=
      if (read_bytes <? max_buffer_size r)%Z
      then resize stored (length got) else stored in
    mk_reader f window (max_buffer_size r) off (col r) (line r) 0.

Definition next (r : reader) : reader :=
  let r1 := set_col (set_shift r (S (shift r))) (col r + 1)%Z in
  if (length (buffer r1) <=? shift r1)%nat then refill_buffer r1 else r1.

Definition get (r : reader) : byte * reader := (peek r, next r).

(** *** Construction *)

(** [reader(std::string& str)]: the string becomes the window. *)
Definition reader_of_string (str : list byte) : reader :=
  let start := match str with [] => (-1)%Z | _ => 0%Z end in
  mk_reader ifstream.closed str 0%Z (-1)%Z start start 0.

(** [reader(path, buffer_size)]; [file] is what the path holds, [None] when
    it cannot be opened ([std::invalid_argument]).  The first read goes into
    the empty window: the model is the code where [fits_inline] holds. *)
Definition reader_of_path (file : option (list byte)) (buffer_size : Z)
  : option reader :=
  match file with
  | None => None
  | Some bytes =>
      let f := ifstream.seekg (ifstream.opened bytes) 0%Z in
      Some (refill_buffer
              (mk_reader f [] buffer_size (ifstream.tellg f) (-1)%Z (-1)%Z 0))
  end.

(** *** Lexeme readers *)

(** [while (valid() && p(peek())) { word += get(); }] *)
Fixpoint get_while (p : byte -> bool) (fuel : nat) (r : reader)
  (word : list byte) : outcome (list byte) :=
  match fuel with
  | 0 => OutOfFuel
  | S fuel' =>
      if valid r && p (peek r) then
        let '(c, r1) := get r in get_while p fuel' r1 (word ++ [c])
      else Val word r
  end.

Fixpoint read_whitespace_loop (fuel : nat) (r : reader) (word : list byte)
  : outcome (list byte) :=
  match fuel with
  | 0 => OutOfFuel
  | S fuel' =>
      if valid r && isspace (peek r) then
        let r0 :=
          if peek r =? LF then set_col (set_line r (line r + 1)%Z) (-1)%Z
          else r in
        let '(c, r1) := get r0 in
        read_whitespace_loop fuel' r1 (word ++ [c])
      else Val word r
  end.

Definition read_whitespace (fuel : nat) (r : reader) : outcome (list byte) :=
  read_whitespace_loop fuel r [].

Definition keyword_char (c : byte) : bool := isalnum c || (c =? "_").

Definition read_keyword (fuel : nat) (r : reader) : outcome (list byte) :=
  let '(c, r1) := get r in get_while keyword_char fuel r1 [c].

(** [read_number], in the three steps of its body: the integer part
    (reader.cpp:34-47), the fraction (48-59) and the exponent (60-74). *)
Definition number_integer_part (fuel : nat) (r : reader)
  : outcome (list byte) :=
  if valid r && (peek r =? "0") then
    let '(c, r1) := get r in
    if valid r1 && isdigit (peek r1)
    then Throw leading_zeros_are_not_allowed r1
    else Val [c] r1
  else if valid r && isdigit (peek r) then
    let '(c, r1) := get r in get_while isdigit fuel r1 [c]
  else Throw expected_digit r.

Definition number_fraction (fuel : nat) (number : list byte) (r : reader)
  : outcome (bool * list byte) :=
  if valid r && (peek r =? ".") then
    let '(c, r1) := get r in
    if negb (valid r1) || negb (isdigit (peek r1))
    then Throw expected_digit_after_decimal r1
    else
      do number, r <- get_while isdigit fuel r1 (number ++ [c]);
      Val (true, number) r
  else Val (false, number) r.

Definition number_exponent (fuel : nat) (is_float : bool)
  (number : list byte) (r : reader) : outcome (bool * list byte) :=
  if valid r && ((peek r =? "e") || (peek r =? "E")) then
    let '(c, r1) := get r in
    let '(number, r2) :=
      if valid r1 && ((peek r1 =? "+") || (peek r1 =? "-"))
      then let '(s, r2) := get r1 in ((number ++ [c]) ++ [s], r2)
      else (number ++ [c], r1) in
    if negb (valid r2) || negb (isdigit (peek r2))
    then Throw expected_digit_after_exponent r2
    else
      do number, r <- get_while isdigit fuel r2 number;
      Val (true, number) r
  else Val (is_float, number) r.

Definition read_number (fuel : nat) (r : reader)
  : outcome (token_kind.t * list byte) :=
  do number, r <- number_integer_part fuel r;
  do (is_float, number), r <- number_fraction fuel number r;
  do (is_float, number), r <- number_exponent fuel is_float number r;
  Val (if is_float then token_kind.floating else token_kind.integer, number) r.

(** The [for (int i = 0; i < 4; ++i)] loop of a [\u] escape. *)
Fixpoint read_hex (n : nat) (r : reader) (hex : list byte)
  : outcome (list byte) :=
  match n with
  | 0 => Val hex r
  | S n' =>
      let r1 := next r in
      if negb (valid r1) || negb (isxdigit (peek r1))
      then Throw invalid_Unicode_escape_sequence r1
      else read_hex n' r1 (hex ++ [peek r1])
  end.

(** The [switch (current)] of an escaped byte: what is appended to [value]. *)
Definition read_escape (r : reader) (current : byte) : outcome (list byte) :=
  if current =? dquote then Val [dquote] r
  else if current =? backslash then Val [backslash] r
  else if current =? "/" then Val ["/"] r
  else if current =? "b" then Val ["008"] r
  else if current =? "f" then Val ["012"] r
  else if current =? "n" then Val [LF] r
  else if current =? "r" then Val ["013"] r
  else if current =? "t" then Val ["009"] r
  else if current =? "u" then
    do hex, r <- read_hex 4 r [];
    Val (to_bytes (stoi16 hex)) r
  else Throw invalid_escape_sequence r.

(** The [do { ... } while (valid());] of [read_string]; a [break] leaves the
    reader on the closing quote. *)
Fixpoint read_string_loop (fuel : nat) (quote : byte) (r : reader)
  (value : list byte) (is_backslash : bool) : outcome (list byte) :=
  match fuel with
  | 0 => OutOfFuel
  | S fuel' =>
      let current := peek r in
      if is_backslash then
        do bytes, r <- read_escape r current;
        let r1 := next r in
        if valid r1 then read_string_loop fuel' quote r1 (value ++ bytes) false
        else Val (value ++ bytes) r1
      else if current =? backslash then
        let r1 := next r in
        if valid r1 then read_string_loop fuel' quote r1 value true
        else Val value r1
      else if current =? quote then Val value r
      else
        let r1 := next r in
        if valid r1
        then read_string_loop fuel' quote r1 (value ++ [current]) false
        else Val (value ++ [current]) r1
  end.

Definition read_string (fuel : nat) (r : reader) : outcome (list byte) :=
  let '(quote, r1) := get r in
  do value, r <- read_string_loop fuel quote r1 [] false;
  if negb (valid r) || negb (peek r =? quote)
  then Throw missing_closing_quote r
  else Val value (next r).

Definition jump_to (r : reader) (position line' col' : Z) : outcome unit :=
  if (position <? 0)%Z then Throw position_is_out_of_range r
  else if negb (ifstream.is_open (ifs r)) then
    let r1 := set_shift r (Z.to_nat position) in
    if (length (buffer r1) <? shift r1)%nat
    then Throw position_is_out_of_range r1
    else Val tt (set_col (set_line r1 line') col')
  else
    let r1 := refill_buffer (set_ifs r (ifstream.seekg (ifs r) position)) in
    Val tt (set_col (set_line r1 line') col').

Definition is_open_bracket (c : byte) := (c =? "(") || (c =? "[") || (c =? "{").
Definition is_close_bracket (c : byte) := (c =? ")") || (c =? "]") || (c =? "}").
Definition is_separator (c : byte) := (c =? ",") || (c =? ";") || (c =? ":").

Definition next_token (fuel : nat) (r : reader)
  : outcome (token.t * list byte) :=
  let position := (line r, col r) in
  if negb (valid r) then
    Val (token.mk token_kind.eof (fst position) (snd position), []) r
  else
    do (t, lexeme), r <-
      (if is_open_bracket (peek r) then Val (token_kind.open_bracket, []) r
       else if is_close_bracket (peek r)
       then Val (token_kind.close_bracket, []) r
       else if is_separator (peek r) then Val (token_kind.separator, []) r
       else if isalpha (peek r) || (peek r =? "_") then
         do lexeme, r <- read_keyword fuel r;
         Val (token_kind.keyword, lexeme) r
       else if isdigit (peek r) then read_number fuel r
       else if (peek r =? squote) || (peek r =? dquote) then
         do lexeme, r <- read_string fuel r;
         Val (token_kind.string, lexeme) r
       else if isspace (peek r) then
         do lexeme, r <- read_whitespace fuel r;
         Val (token_kind.whitespace, lexeme) r
       else Val (token_kind.special_character, []) r);
    match lexeme with
    | [] =>
        let '(c, r1) := get r in
        Val (token.mk t (fst position) (snd position), [c]) r1
    | _ => Val (token.mk t (fst position) (snd position), lexeme) r
    end.

(** A client's loop: call [next_token] until it returns [eof], at most
    [calls] times, collecting the tokens and their lexemes. *)
Fixpoint tokens (calls fuel : nat) (r : reader)
  : outcome (list (token.t * list byte)) :=
  match calls with
  | 0 => OutOfFuel
  | S calls' =>
      do (t, lexeme), r <- next_token fuel r;
      match token.kind t with
      | token_kind.eof => Val [] r
      | _ =>
          do rest, r <- tokens calls' fuel r;
          Val ((t, lexeme) :: rest) r
      end
  end.

(** How the loop ended. *)
Inductive ending :=
| reached_eof
| threw (e : error)
| out_of_calls.

(** The same loop, keeping what [next_token] had returned when the loop
    ended: all the tokens before [eof], or those before the call that
    threw. *)
Fixpoint token_trace (calls fuel : nat) (r : reader)
  : list (token.t * list byte) * ending :=
  match calls with
  | 0 => ([], out_of_calls)
  | S calls' =>
      match next_token fuel r with
      | Val (t, lexeme) r' =>
          match token.kind t with
          | token_kind.eof => ([], reached_eof)
          | _ =>
              let '(l, e) := token_trace calls' fuel r' in
              ((t, lexeme) :: l, e)
          end
      | Throw e _ => ([], threw e)
      | OutOfFuel => ([], out_of_calls)
      end
  end.

Definition bytes (s : String.string) : list byte :=
  String.list_ascii_of_string s.
Arguments bytes s%_string.

(** ** Readers that cannot refill

    [refill_buffer] returns at once when no file is open or the stream has
    reached its end; the window is then all the input there is, and the
    unread input is the window from [shift] on. *)

Definition idle (r : reader) : bool :=
  negb (ifstream.is_open (ifs r)) || ifstream.eof (ifs r).

Definition rest (r : reader) : list byte := skipn (shift r) (buffer r).

(** The reader after [n] calls of [next] that met no newline bookkeeping. *)
Definition skip (n : nat) (r : reader) : reader :=
  set_col (set_shift r (n + shift r)) (col r + Z.of_nat n)%Z.

Fixpoint take_while (p : byte -> bool) (l : list byte) : list byte :=
  match l with
  | c :: tl => if p c then c :: take_while p tl else []
  | [] => []
  end.

Fixpoint drop_while (p : byte -> bool) (l : list byte) : list byte :=
  match l with
  | c :: tl => if p c then drop_while p tl else l
  | [] => []
  end.

(** ** The numeric grammar, as the specification words it *)

Inductive parse :=
| Accept (lexeme tail : list byte)
| Reject (e : error) (at_byte : nat).

(** Either the single digit 0, or a run of digits not starting with 0; a 0
    immediately followed by another digit is an error. *)
Definition spec_integer_part (s : list byte) : parse :=
  match s with
  | c :: tl =>
      if c =? "0" then
        match tl with
        | d :: _ =>
            if isdigit d then Reject leading_zeros_are_not_allowed 1
            else Accept [c] tl
        | [] => Accept [c] []
        end
      else if isdigit c
      then Accept (take_while isdigit s) (drop_while isdigit s)
      else Reject expected_digit 0
  | [] => Reject expected_digit 0
  end.

(** Optional: a dot followed by one or more digits. *)
Definition spec_fraction (s : list byte) : parse :=
  match s with
  | c :: tl =>
      if c =? "." then
        match take_while isdigit tl with
        | [] => Reject expected_digit_after_decimal 1
        | ds => Accept (c :: ds) (drop_while isdigit tl)
        end
      else Accept [] s
  | [] => Accept [] []
  end.

(** Optional: e or E, an optional sign, one or more digits. *)
Definition spec_exponent (s : list byte) : parse :=
  match s with
  | c :: tl =>
      if (c =? "e") || (c =? "E") then
        let '(sign, tl') :=
          match tl with
          | g :: tl' => if (g =? "+") || (g =? "-") then ([g], tl') else ([], tl)
          | [] => ([], [])
          end in
        match take_while isdigit tl' with
        | [] => Reject expected_digit_after_exponent (1 + length sign)
        | ds => Accept (c :: sign ++ ds) (drop_while isdigit tl')
        end
      else Accept [] s
  | [] => Accept [] []
  end.

Inductive number_parse :=
| Number (k : token_kind.t) (lexeme tail : list byte)
| NumberFormat (e : error) (at_byte : nat).

Definition is_nil (l : list byte) : bool :=
  match l with [] => true | _ => false end.

Definition spec_number (s : list byte) : number_parse :=
  match spec_integer_part s with
  | Reject e n => NumberFormat e n
  | Accept ip s1 =>
      match spec_fraction s1 with
      | Reject e n => NumberFormat e (length ip + n)
      | Accept fp s2 =>
          match spec_exponent s2 with
          | Reject e n => NumberFormat e (length ip + length fp + n)
          | Accept ep s3 =>
              Number (if is_nil fp && is_nil ep
                      then token_kind.integer else token_kind.floating)
                     (ip ++ fp ++ ep) s3
          end
      end
  end.

(** ** Observing outcomes *)

Definition returned {A : Type} (m : outcome A) : option A :=
  match m with Val a _ => Some a | _ => None end.

Definition thrown {A : Type} (m : outcome A) : option error :=
  match m with Throw e _ => Some e | _ => None end.

(** Where the token loop stops on an input without quotes, [tl] being what
    is left of the input: at its end, or before a digit that begins a number
    the grammar rejects, with the grammar's error. *)
Definition stops_at (e : ending) (tl : list byte) : Prop :=
  match e with
  | reached_eof => tl = []
  | threw err =>
      isdigit (hd NUL tl) = true /\
      exists n, spec_number tl = NumberFormat err n
  | out_of_calls => False
  end.

(** The outcome of [tokens] that goes with a trace. *)
Definition ends_as (m : outcome (list (token.t * list byte)))
  (l : list (token.t * list byte)) (e : ending) : Prop :=
  match e with
  | reached_eof => exists r', m = Val l r'
  | threw err => exists r', m = Throw err r'
  | out_of_calls => m = OutOfFuel
  end.

(** The first token of an in-memory input. *)
Definition first_token (s : list byte) : outcome (token.t * list byte) :=
  next_token (S (length s)) (reader_of_string s).

(** What a position reads after each token of an in-memory input. *)
Definition positions (s : list byte)
  : option (list (token_kind.t * Z * Z * list byte)) :=
  match tokens (S (length s)) (S (length s)) (reader_of_string s) with
  | Val l _ =>
      Some (map (fun tl => (token.kind (fst tl), token.line (fst tl),
                            token.col (fst tl), snd tl)) l)
  | _ => None
  end.

(** ** The string grammar, as the specification words it *)

(** The one-byte escapes and the byte each denotes. *)
Definition simple_escape (e : byte) : option byte :=
  if e =? dquote then Some dquote
  else if e =? backslash then Some backslash
  else if e =? "/" then Some "/"
  else if e =? "b" then Some "008"
  else if e =? "f" then Some "012"
  else if e =? "n" then Some LF
  else if e =? "r" then Some "013"
  else if e =? "t" then Some "009"
  else None.

Inductive string_parse :=
| Closed (decoded tail : list byte)
| StringFormat (e : error).

Definition prepend (decoded : list byte) (p : string_parse) : string_parse :=
  match p with
  | Closed d tl => Closed (decoded ++ d) tl
  | StringFormat e => StringFormat e
  end.

(** The bytes after the opening quote: the decoded value up to the matching
    quote and what follows it, or the error.  A backslash takes the next
    byte as an escape; [u] takes four hexadecimal digits; end of input
    before the closing quote is an error. *)
Fixpoint spec_string (quote : byte) (s : list byte) : string_parse :=
  match s with
  | [] => StringFormat missing_closing_quote
  | c :: tl =>
      if c =? backslash then
        match tl with
        | [] => StringFormat missing_closing_quote
        | e :: tl1 =>
            if e =? "u" then
              match tl1 with
              | h1 :: h2 :: h3 :: h4 :: tl2 =>
                  if forallb isxdigit [h1; h2; h3; h4]
                  then prepend (to_bytes (stoi16 [h1; h2; h3; h4]))
                               (spec_string quote tl2)
                  else StringFormat invalid_Unicode_escape_sequence
              | _ => StringFormat invalid_Unicode_escape_sequence
              end
            else
              match simple_escape e with
              | Some d => prepend [d] (spec_string quote tl1)
              | None => StringFormat invalid_escape_sequence
              end
        end
      else if c =? quote then Closed [] tl
      else prepend [c] (spec_string quote tl)
  end.

(** What the loop of [read_string], started at [r] with [value] read so
    far, owes to the grammar's verdict on the unread input. *)
Definition loop_meets (quote : byte) (r : reader) (value : list byte)
  (out : outcome (list byte)) (p : string_parse) : Prop :=
  match p with
  | Closed d tl =>
      exists n, out = Val (value ++ d) (skip n r) /\
                rest (skip n r) = quote :: tl
  | StringFormat missing_closing_quote =>
      exists v n, out = Val v (skip n r) /\ valid (skip n r) = false
  | StringFormat e => exists n, out = Throw e (skip n r)
  end.

(** ** Positions over a whitespace run *)

(** The reader after one pass of the whitespace loop on byte [c]. *)
Definition after_space (c : byte) (r : reader) : reader :=
  skip 1 (if c =? LF then set_col (set_line r (line r + 1)%Z) (-1)%Z else r).

Fixpoint after_spaces (l : list byte) (r : reader) : reader :=
  match l with
  | [] => r
  | c :: l' => after_spaces l' (after_space c r)
  end.

(** Where a position moves over a text: a newline starts the next line at
    column 0, any other byte is one column. *)
Definition spec_position (text : list byte) (p : Z * Z) : Z * Z :=
  fold_left (fun p c => if c =? LF then ((fst p + 1)%Z, 0%Z)
                        else (fst p, (snd p + 1)%Z))
            text p.

(** ** Moving forward over a lexeme *)

(** [r'] is [r] moved forward over [lexeme], which is what [r] had next. *)
Definition advances (r : reader) (lexeme : list byte) (r' : reader) : Prop :=
  ifs r' = ifs r /\ buffer r' = buffer r /\
  shift r' = length lexeme + shift r /\
  lexeme <> [] /\ rest r = lexeme ++ rest r'.

Definition is_quote (c : byte) : bool := (c =? squote) || (c =? dquote).

Definition no_quote (s : list byte) : bool :=
  forallb (fun c => negb (is_quote c)) s.

(** ** The window of a file-backed reader *)

Definition window_inv (r : reader) : Prop :=
  ifstream.is_open (ifs r) = false \/ buffer r = [] \/
  (ifstream.eofbit (ifs r) = true /\ ifstream.failbit (ifs r) = true /\
   (0 < max_buffer_size r)%Z).

Definition inv_out {A : Type} (m : outcome A) : Prop :=
  match m with
  | Val _ r | Throw _ r => window_inv r
  | OutOfFuel => True
  end.

(** ** [readln] *)

(** The [while] loop of [readln]: the byte is appended before it is
    consumed, and a newline ends the read after its bookkeeping. *)
Fixpoint readln_loop (fuel : nat) (r : reader) (data : list byte)
  (max_size : nat) : outcome (list byte) :=
  match fuel with
  | 0 => OutOfFuel
  | S fuel' =>
      if valid r && (length data <? max_size)%nat then
        let data1 := data ++ [peek r] in
        let '(c, r1) := get r in
        if c =? LF
        then Val data1 (set_col (set_line r1 (line r1 + 1)%Z) 0%Z)
        else readln_loop fuel' r1 data1 max_size
      else Val data r
  end.

(** [readln(data, max_size)]: the position the read began at, and [data]. *)
Definition readln (fuel : nat) (r : reader) (max_size : nat)
  : outcome ((Z * Z) * list byte) :=
  let position := (line r, col r) in
  do data, r <- readln_loop fuel r [] max_size;
  Val (position, data) r.

(** The text one [readln] takes from an input: up to and including the
    first newline, and no more than [max_size] bytes. *)
Fixpoint line_prefix (max_size : nat) (s : list byte) : list byte :=
  match max_size, s with
  | S m, c :: tl => if c =? LF then [c] else c :: line_prefix m tl
  | _, _ => []
  end.

(** A client's loop: call [readln] until it returns no text, at most
    [calls] times, collecting the texts. *)
Fixpoint read_lines (calls fuel : nat) (r : reader) (max_size : nat)
  : outcome (list (list byte)) :=
  match calls with
  | 0 => OutOfFuel
  | S calls' =>
      do (_, data), r <- readln fuel r max_size;
      match data with
      | [] => Val [] r
      | _ =>
          do more, r <- read_lines calls' fuel r max_size;
          Val (data :: more) r
      end
  end.

(** The positions a token list claims, against the positions its lexemes
    spell out from [p] on. *)
Fixpoint positioned (p : Z * Z) (l : list (token.t * list byte)) : Prop :=
  match l with
  | [] => True
  | (t, lexeme) :: l' =>
      (token.line t, token.col t) = p /\
      positioned (spec_position lexeme p) l'
  end.

(** ** The readers a client can hold

    The two constructions, and what [next_token], [readln] and [jump_to]
    leave behind, returning or throwing.  A reader on a file is one whose
    reads fit the window's inline storage. *)
Inductive reachable : reader -> Prop :=
| reach_string s : reachable (reader_of_string s)
| reach_path file size r :
    fits_inline file size ->
    reader_of_path (Some file) size = Some r -> reachable r
| reach_next_token fuel r a r' :
    reachable r -> next_token fuel r = Val a r' -> reachable r'
| reach_next_token_throw fuel r e r' :
    reachable r -> next_token fuel r = Throw e r' -> reachable r'
| reach_readln fuel r max_size a r' :
    reachable r -> readln fuel r max_size = Val a r' -> reachable r'
| reach_jump_to r position line' col' r' :
    reachable r -> jump_to r position line' col' = Val tt r' -> reachable r'
| reach_jump_to_throw r position line' col' e r' :
    reachable r -> jump_to r position line' col' = Throw e r' -> reachable r'.

(** ** Properties of the reader a call leaves behind *)

(** [P] holds of the reader an outcome carries, returned or thrown. *)
Definition out_sat {A : Type} (P : reader -> Prop) (m : outcome A) : Prop :=
  match m with
  | Val _ r | Throw _ r => P r
  | OutOfFuel => True
  end.

(** [r] reads the same source as [r0]: the stream, the window, the chunk
    size and the offset are those of [r0]; only the cursor and the position
    may differ. *)
Definition same_source (r0 r : reader) : Prop :=
  ifs r = ifs r0 /\ buffer r = buffer r0 /\
  max_buffer_size r = max_buffer_size r0 /\ offset r = offset r0.


(** ** Sample inputs *)

Definition sample_number : reader := reader_of_string (bytes "1.5e-10").

Definition sample_source : list byte :=
  bytes "f(x_1, 12.5e3);" ++ [LF] ++ bytes "  {y: 0}".

Definition sample_mixed : reader :=
  reader_of_string (bytes "if (x) 'a b' 42").

Definition sample_exhausted : reader := skip 2 (reader_of_string (bytes "ab")).

Definition sample_seek : reader := reader_of_string (bytes "abc").

Definition sample_bad_escape : reader :=
  reader_of_string [dquote; "a"; backslash; "q"; dquote].

Definition sample_string : reader :=
  reader_of_string [squote; "a"; backslash; "t"; squote; ";"].

(** ** Classes of bytes and tokens *)

(** The kind of a token that is one byte long by its class. *)
Definition one_byte_kind (c : byte) : token_kind.t :=
  if is_open_bracket c then token_kind.open_bracket
  else if is_close_bracket c then token_kind.close_bracket
  else if is_separator c then token_kind.separator
  else token_kind.special_character.

(** What the first byte was, for each kind. *)
Definition first_byte_class (k : token_kind.t) (r : reader) : Prop :=
  match k with
  | token_kind.eof => valid r = false
  | token_kind.open_bracket => is_open_bracket (peek r) = true
  | token_kind.close_bracket => is_close_bracket (peek r) = true
  | token_kind.separator => is_separator (peek r) = true
  | token_kind.keyword => isalpha (peek r) || (peek r =? "_") = true
  | token_kind.integer | token_kind.floating => isdigit (peek r) = true
  | token_kind.string => is_quote (peek r) = true
  | token_kind.whitespace => isspace (peek r) = true
  | token_kind.special_character =>
      is_open_bracket (peek r) = false /\ is_close_bracket (peek r) = false /\
      is_separator (peek r) = false /\
      isalpha (peek r) || (peek r =? "_") = false /\
      isdigit (peek r) = false /\ is_quote (peek r) = false /\
      isspace (peek r) = false
  end.

Definition not_LF (c : byte) : bool := negb (c =? LF).

(** The bytes a number lexeme is made of. *)
Definition number_char (c : byte) : bool :=
  isdigit c || (c =? ".") || (c =? "e") || (c =? "E") || (c =? "+") || (c =? "-").


(** ** More sample inputs *)

Definition sample_identifier : reader := reader_of_string (bytes "_ab1-c").

Definition sample_punctuation : reader := reader_of_string (bytes "{#}").

Definition sample_lines : reader :=
  reader_of_string (bytes "Sehr geehrte," ++ [LF] ++ bytes "heute...").

Definition sample_malformed : reader := reader_of_string (bytes "12.x 7").

Definition sample_spaced : reader := reader_of_string (bytes "ab  cd").


Definition sample_escape : reader :=
  reader_of_string (bytes "\u20aC!").

Definition sample_partial : list byte := bytes "ab 0123".

Definition sample_file : reader :=
  match reader_of_path (Some (bytes "abc")) 4096 with
  | Some r => r
  | None => reader_of_string []
  end.

(** * Properties *)

(** ** The cursor of a reader that cannot refill *)

Lemma refill_buffer_idle r : idle r = true -> refill_buffer r = r.
Proof. unfold idle, refill_buffer. intros ->. reflexivity. Qed.

Lemma next_idle r : idle r = true -> next r = skip 1 r.
Proof.
  intros H. unfold next.
  change (set_col (set_shift r (S (shift r))) (col r + 1)%Z) with (skip 1 r).
  destruct (_ <=? _)%nat; [apply refill_buffer_idle; exact H | reflexivity].
Qed.

Lemma get_idle r : idle r = true -> get r = (peek r, skip 1 r).
Proof. intros H. unfold get. now rewrite next_idle. Qed.

Lemma skip_skip n m r : skip n (skip m r) = skip (n + m) r.
Proof. unfold skip, set_col, set_shift. simpl. f_equal; lia. Qed.

Lemma skip_0 r : skip 0 r = r.
Proof. destruct r. unfold skip, set_col, set_shift. simpl. f_equal. lia. Qed.

Lemma rest_skip n r : rest (skip n r) = skipn n (rest r).
Proof. unfold rest. simpl. now rewrite skipn_skipn. Qed.

Lemma skipn_nth (l : list byte) : forall n d,
  n < length l -> skipn n l = nth n l d :: skipn (S n) l.
Proof.
  induction l as [|a l IH]; intros n d H; simpl in H; [lia|].
  destruct n as [|n]; [reflexivity|].
  simpl. rewrite (IH n d) by lia. reflexivity.
Qed.

Lemma rest_valid r : valid r = true -> rest r = peek r :: rest (skip 1 r).
Proof.
  unfold valid, rest, peek. intros H.
  apply andb_true_iff in H as [_ H]. apply Nat.ltb_lt in H.
  simpl. now apply skipn_nth.
Qed.

Lemma rest_invalid r : valid r = false -> rest r = [].
Proof.
  unfold valid, rest. intros H. apply skipn_all2.
  apply andb_false_iff in H as [H|H].
  - apply negb_false_iff, Nat.eqb_eq in H. lia.
  - apply Nat.ltb_ge in H. exact H.
Qed.

Lemma cursor_cases r :
  (valid r = false /\ rest r = []) \/
  (valid r = true /\ rest r = peek r :: rest (skip 1 r)).
Proof.
  destruct (valid r) eqn:V; [right | left]; split; trivial.
  - now apply rest_valid.
  - now apply rest_invalid.
Qed.

Lemma take_drop_while p l : take_while p l ++ drop_while p l = l.
Proof.
  induction l as [|c l IH]; simpl; [reflexivity|].
  destruct (p c); simpl; [now rewrite IH | reflexivity].
Qed.

Lemma skipn_take_while p l : skipn (length (take_while p l)) l = drop_while p l.
Proof.
  induction l as [|c l IH]; simpl; [reflexivity|].
  destruct (p c); simpl; [exact IH | reflexivity].
Qed.

(** The [while] loop reads exactly the longest run of bytes that satisfy
    [p], given fuel beyond the unread input. *)
Lemma get_while_idle p : forall fuel r word,
  idle r = true -> length (rest r) < fuel ->
  get_while p fuel r word =
  Val (word ++ take_while p (rest r))
      (skip (length (take_while p (rest r))) r).
Proof.
  induction fuel as [|fuel IH]; intros r word I F; [lia|].
  cbn [get_while].
  destruct (cursor_cases r) as [[V E]|[V E]]; rewrite V, E; cbn [andb take_while].
  - cbn [length]. now rewrite app_nil_r, skip_0.
  - destruct (p (peek r)) eqn:P.
    + rewrite get_idle by exact I.
      rewrite IH; [| exact I | rewrite E in F; simpl in F; lia].
      rewrite skip_skip, <- app_assoc. cbn [length app].
      now rewrite Nat.add_1_r.
    + cbn [length]. now rewrite app_nil_r, skip_0.
Qed.

(** ** [read_number] against the grammar *)

Lemma rest_skip_fuel n r fuel :
  length (rest r) < fuel -> length (rest (skip n r)) < fuel.
Proof. rewrite rest_skip, length_skipn. lia. Qed.

Ltac at_cursor r V E :=
  destruct (cursor_cases r) as [[V E]|[V E]]; rewrite ?V, ?E;
  cbn [andb orb negb]; rewrite ?V; cbn [andb orb negb].

Lemma number_integer_part_spec fuel r :
  idle r = true -> length (rest r) < fuel ->
  number_integer_part fuel r =
  match spec_integer_part (rest r) with
  | Accept ip _ => Val ip (skip (length ip) r)
  | Reject e n => Throw e (skip n r)
  end.
Proof.
  intros I F. unfold number_integer_part, spec_integer_part.
  at_cursor r V E; [now rewrite skip_0|].
  destruct (peek r =? "0") eqn:Z0.
  - rewrite get_idle by exact I.
    at_cursor (skip 1 r) V1 E1; [reflexivity|].
    now destruct (isdigit (peek (skip 1 r))).
  - destruct (isdigit (peek r)) eqn:D; [|now rewrite skip_0].
    rewrite get_idle by exact I.
    rewrite get_while_idle by (trivial; now apply rest_skip_fuel).
    cbn [take_while]. rewrite D, skip_skip. cbn [length app].
    now rewrite Nat.add_1_r.
Qed.

Lemma take_while_nil_iff p l :
  take_while p l = [] <-> match l with c :: _ => p c = false | [] => True end.
Proof.
  destruct l as [|c l]; simpl; [tauto|].
  destruct (p c); split; congruence.
Qed.

Lemma number_fraction_spec fuel number r :
  idle r = true -> length (rest r) < fuel ->
  number_fraction fuel number r =
  match spec_fraction (rest r) with
  | Accept fp _ => Val (negb (is_nil fp), number ++ fp) (skip (length fp) r)
  | Reject e n => Throw e (skip n r)
  end.
Proof.
  intros I F. unfold number_fraction, spec_fraction.
  at_cursor r V E; [now rewrite app_nil_r, skip_0|].
  destruct (peek r =? ".") eqn:Dot;
    [|cbn [length is_nil negb]; now rewrite app_nil_r, skip_0].
  rewrite get_idle by exact I.
  at_cursor (skip 1 r) V1 E1; [reflexivity|].
  cbn [take_while].
  destruct (isdigit (peek (skip 1 r))) eqn:D; cbn [negb]; [|reflexivity].
  rewrite get_while_idle by (trivial; now apply rest_skip_fuel).
  cbn [bind]. rewrite E1. cbn [take_while]. rewrite D.
  rewrite !skip_skip, <- app_assoc. cbn [length app is_nil negb].
  do 2 f_equal. lia.
Qed.

Lemma number_exponent_spec fuel is_float number r :
  idle r = true -> length (rest r) < fuel ->
  number_exponent fuel is_float number r =
  match spec_exponent (rest r) with
  | Accept ep _ =>
      Val (is_float || negb (is_nil ep), number ++ ep) (skip (length ep) r)
  | Reject e n => Throw e (skip n r)
  end.
Proof.
  intros I F. unfold number_exponent, spec_exponent.
  at_cursor r V E;
    [cbn [is_nil negb length]; now rewrite app_nil_r, skip_0, orb_false_r|].
  destruct ((peek r =? "e") || (peek r =? "E")) eqn:Ex;
    [|cbn [length is_nil negb]; now rewrite app_nil_r, skip_0, orb_false_r].
  rewrite get_idle by exact I.
  at_cursor (skip 1 r) V1 E1; [reflexivity|].
  destruct ((peek (skip 1 r) =? "+") || (peek (skip 1 r) =? "-")) eqn:Sg.
  - rewrite get_idle by exact I. rewrite skip_skip. cbn [Nat.add].
    at_cursor (skip 2 r) V2 E2; [reflexivity|].
    cbn [take_while].
    destruct (isdigit (peek (skip 2 r))) eqn:D; cbn [negb]; [|reflexivity].
    rewrite get_while_idle by (trivial; now apply rest_skip_fuel).
    cbn [bind]. rewrite E2. cbn [take_while]. rewrite D.
    rewrite !skip_skip, <- !app_assoc. cbn [length app is_nil negb].
    rewrite orb_true_r. do 2 f_equal. lia.
  - rewrite V1. cbn [andb negb orb take_while].
    destruct (isdigit (peek (skip 1 r))) eqn:D; cbn [negb]; [|reflexivity].
    rewrite get_while_idle by (trivial; now apply rest_skip_fuel).
    cbn [bind]. rewrite E1. cbn [take_while]. rewrite D.
    rewrite !skip_skip, <- !app_assoc. cbn [length app is_nil negb].
    rewrite orb_true_r. do 2 f_equal. lia.
Qed.

Lemma skipn_length_app (a b : list byte) : skipn (length a) (a ++ b) = b.
Proof. induction a; simpl; trivial. Qed.

Lemma spec_integer_part_split s ip tl :
  spec_integer_part s = Accept ip tl -> s = ip ++ tl.
Proof.
  unfold spec_integer_part. destruct s as [|c s]; [discriminate|].
  destruct (c =? "0").
  - destruct s as [|d s]; [|destruct (isdigit d)]; intros [= <- <-]; reflexivity.
  - destruct (isdigit c) eqn:D; intros [= <- <-].
    symmetry. apply (take_drop_while isdigit (c :: s)).
Qed.

Lemma spec_fraction_split s fp tl :
  spec_fraction s = Accept fp tl -> s = fp ++ tl.
Proof.
  unfold spec_fraction. destruct s as [|c s]; [now intros [= <- <-]|].
  destruct (c =? "."); [|now intros [= <- <-]].
  pose proof (take_drop_while isdigit s) as T.
  destruct (take_while isdigit s); intros [= <- <-].
  cbn [app]. f_equal. symmetry. exact T.
Qed.

Lemma spec_exponent_split s ep tl :
  spec_exponent s = Accept ep tl -> s = ep ++ tl.
Proof.
  unfold spec_exponent. destruct s as [|c s]; [now intros [= <- <-]|].
  destruct ((c =? "e") || (c =? "E")); [|now intros [= <- <-]].
  destruct s as [|g s].
  - simpl. discriminate.
  - destruct ((g =? "+") || (g =? "-")).
    + pose proof (take_drop_while isdigit s) as T.
      destruct (take_while isdigit s); intros [= <- <-].
      cbn [app]. do 2 f_equal. symmetry. exact T.
    + pose proof (take_drop_while isdigit (g :: s)) as T.
      destruct (take_while isdigit (g :: s)); intros [= <- <-].
      cbn [app]. f_equal. symmetry. exact T.
Qed.

Lemma rest_after r lexeme tl :
  rest r = lexeme ++ tl -> rest (skip (length lexeme) r) = tl.
Proof. intros E. rewrite rest_skip, E. apply skipn_length_app. Qed.

Lemma read_number_spec fuel r :
  idle r = true -> length (rest r) < fuel ->
  read_number fuel r =
  match spec_number (rest r) with
  | Number k lexeme _ => Val (k, lexeme) (skip (length lexeme) r)
  | NumberFormat e n => Throw e (skip n r)
  end.
Proof.
  intros I F. unfold read_number, spec_number.
  rewrite number_integer_part_spec by assumption.
  destruct (spec_integer_part (rest r)) as [ip s1|] eqn:IP; [|reflexivity].
  apply spec_integer_part_split, rest_after in IP.
  cbn [bind].
  rewrite number_fraction_spec by (trivial; now apply rest_skip_fuel).
  rewrite IP.
  destruct (spec_fraction s1) as [fp s2|] eqn:FP;
    [|cbn [bind]; rewrite skip_skip; do 2 f_equal; lia].
  apply spec_fraction_split in FP. rewrite <- IP in FP.
  apply rest_after in FP. cbn [bind].
  rewrite number_exponent_spec by (trivial; now do 2 apply rest_skip_fuel).
  rewrite FP.
  destruct (spec_exponent s2) as [ep s3|] eqn:EP; cbn [bind].
  - rewrite !skip_skip, !length_app, <- app_assoc.
    f_equal; [|f_equal; lia].
    now destruct fp, ep.
  - rewrite !skip_skip. f_equal. f_equal. lia.
Qed.

Lemma spec_number_split s k lexeme tl :
  spec_number s = Number k lexeme tl -> s = lexeme ++ tl /\ lexeme <> [].
Proof.
  unfold spec_number.
  destruct (spec_integer_part s) as [ip s1|] eqn:IP; [|discriminate].
  destruct (spec_fraction s1) as [fp s2|] eqn:FP; [|discriminate].
  destruct (spec_exponent s2) as [ep s3|] eqn:EP; [|discriminate].
  intros [= <- <- <-].
  apply spec_exponent_split in EP. apply spec_fraction_split in FP.
  assert (N : ip <> []).
  { unfold spec_integer_part in IP. destruct s as [|c s]; [discriminate|].
    destruct (c =? "0").
    - destruct s as [|d s]; [|destruct (isdigit d)]; now inversion IP.
    - destruct (isdigit c) eqn:D; inversion IP. simpl. now rewrite D. }
  apply spec_integer_part_split in IP. subst.
  split; [now rewrite <- !app_assoc|].
  destruct ip; [congruence | discriminate].
Qed.

(** ** [next_token] on a digit *)

Lemma digit_class c :
  isdigit c = true ->
  is_open_bracket c = false /\ is_close_bracket c = false /\
  is_separator c = false /\ isalpha c = false /\ (c =? "_") = false.
Proof.
  destruct c as [[] [] [] [] [] [] [] []]; intros H;
    try discriminate H; repeat split.
Qed.

Lemma spec_number_kind s k lexeme tl :
  spec_number s = Number k lexeme tl ->
  k = token_kind.integer \/ k = token_kind.floating.
Proof.
  unfold spec_number.
  destruct (spec_integer_part s) as [ip s1|]; [|discriminate].
  destruct (spec_fraction s1) as [fp s2|]; [|discriminate].
  destruct (spec_exponent s2) as [ep s3|]; [|discriminate].
  intros [= <- _ _]. destruct (is_nil fp && is_nil ep); auto.
Qed.

Lemma spec_number_rejects s e n :
  spec_number s = NumberFormat e n -> NumberFormatError e = true.
Proof.
  unfold spec_number.
  destruct (spec_integer_part s) as [ip s1|e1 n1] eqn:IP.
  - destruct (spec_fraction s1) as [fp s2|e2 n2] eqn:FP.
    + destruct (spec_exponent s2) as [ep s3|e3 n3] eqn:EP; [discriminate|].
      intros [= <- _]. unfold spec_exponent in EP.
      destruct s2 as [|c s2]; [discriminate|].
      destruct ((c =? "e") || (c =? "E")); [|discriminate].
      destruct s2 as [|g s2]; [now inversion EP|].
      destruct ((g =? "+") || (g =? "-"));
        match type of EP with
        | context [take_while ?p ?l] => destruct (take_while p l)
        end; now inversion EP.
    + intros [= <- _]. unfold spec_fraction in FP.
      destruct s1 as [|c s1]; [discriminate|].
      destruct (c =? "."); [|discriminate].
      destruct (take_while isdigit s1); now inversion FP.
  - intros [= <- _]. unfold spec_integer_part in IP.
    destruct s as [|c s]; [now inversion IP|].
    destruct (c =? "0").
    + destruct s as [|d s]; [discriminate|].
      destruct (isdigit d); now inversion IP.
    + destruct (isdigit c); now inversion IP.
Qed.

(** C1: on a lexeme that starts with a digit, [next_token] is the strict
    numeric grammar: integer part, optional fraction, optional exponent;
    the kind is integer exactly when neither optional part is there; a
    number-format error is thrown exactly where the grammar rejects (a 0
    followed by a digit, a dot or an exponent marker and sign not followed
    by a digit), with the cursor on the offending byte.  The ten inputs of
    the specification are rejected and accepted as it says. *)
Theorem next_token_number :
  (forall fuel r,
     idle r = true -> valid r = true -> isdigit (peek r) = true ->
     length (rest r) < fuel ->
     next_token fuel r =
     match spec_number (rest r) with
     | Number k lexeme _ =>
         Val (token.mk k (line r) (col r), lexeme) (skip (length lexeme) r)
     | NumberFormat e n => Throw e (skip n r)
     end) /\
  (forall s e n, spec_number s = NumberFormat e n -> NumberFormatError e = true) /\
  thrown (first_token (bytes "0123")) = Some leading_zeros_are_not_allowed /\
  thrown (first_token (bytes "123.")) = Some expected_digit_after_decimal /\
  thrown (first_token (bytes "123e")) = Some expected_digit_after_exponent /\
  thrown (first_token (bytes "123E+")) = Some expected_digit_after_exponent /\
  thrown (first_token (bytes "123eE")) = Some expected_digit_after_exponent /\
  returned (first_token (bytes "0")) =
    Some (token.mk token_kind.integer 0 0, bytes "0") /\
  returned (first_token (bytes "73")) =
    Some (token.mk token_kind.integer 0 0, bytes "73") /\
  returned (first_token (bytes "0.0")) =
    Some (token.mk token_kind.floating 0 0, bytes "0.0") /\
  returned (first_token (bytes "1.5e-10")) =
    Some (token.mk token_kind.floating 0 0, bytes "1.5e-10") /\
  returned (first_token (bytes "168E+012")) =
    Some (token.mk token_kind.floating 0 0, bytes "168E+012").
Proof.
  split; [|split; [|repeat split]].
  - intros fuel r I V D F. unfold next_token. rewrite V. cbn [negb fst snd].
    destruct (digit_class _ D) as (-> & -> & -> & -> & ->). cbn [orb].
    rewrite D, read_number_spec by assumption.
    destruct (spec_number (rest r)) as [k lexeme tl|e n] eqn:S; [|reflexivity].
    apply spec_number_split in S as [_ N]. cbn [bind].
    destruct lexeme; [congruence | reflexivity].
  - apply spec_number_rejects.
Qed.

Lemma next_token_number_witness :
  idle sample_number = true /\ valid sample_number = true /\
  isdigit (peek sample_number) = true /\ length (rest sample_number) < 8 /\
  next_token 8 sample_number =
  Val (token.mk token_kind.floating 0 0, bytes "1.5e-10")
      (skip 7 sample_number).
Proof.
  assert (F : length (rest sample_number) < 8) by (vm_compute; lia).
  refine (conj eq_refl (conj eq_refl (conj eq_refl (conj F _)))).
  exact (proj1 next_token_number 8 sample_number eq_refl eq_refl eq_refl F).
Defined.

(** ** [read_string] against the grammar *)

Lemma peek_invalid r : valid r = false -> peek r = NUL.
Proof.
  unfold valid, peek. intros H. apply nth_overflow.
  apply andb_false_iff in H as [H|H].
  - apply negb_false_iff, Nat.eqb_eq in H. lia.
  - apply Nat.ltb_ge in H. exact H.
Qed.

Lemma valid_skip_false n r : valid r = false -> valid (skip n r) = false.
Proof.
  unfold valid. simpl. intros H.
  apply andb_false_iff in H as [H|H]; apply andb_false_iff; [now left|right].
  apply Nat.ltb_ge in H. apply Nat.ltb_ge. lia.
Qed.

Lemma rest_nonempty_valid r c tl : rest r = c :: tl -> valid r = true /\ peek r = c.
Proof.
  intros E. destruct (cursor_cases r) as [[V E']|[V E']].
  - congruence.
  - split; [exact V | congruence].
Qed.

Lemma read_escape_cases r e :
  read_escape r e =
  if e =? "u" then
    do hex, r <- read_hex 4 r [];
    Val (to_bytes (stoi16 hex)) r
  else
    match simple_escape e with
    | Some d => Val [d] r
    | None => Throw invalid_escape_sequence r
    end.
Proof.
  unfold read_escape, simple_escape.
  destruct (e =? "u") eqn:U.
  - apply Ascii.eqb_eq in U. subst e. reflexivity.
  - repeat match goal with
           | |- context [if ?b then _ else _] => destruct b; try reflexivity
           end.
Qed.

Lemma read_hex_spec n : forall r hex,
  idle r = true ->
  if (n <=? length (rest (skip 1 r)))%nat &&
     forallb isxdigit (firstn n (rest (skip 1 r)))
  then read_hex n r hex = Val (hex ++ firstn n (rest (skip 1 r))) (skip n r)
  else exists m, read_hex n r hex = Throw invalid_Unicode_escape_sequence (skip m r).
Proof.
  induction n as [|n IH]; intros r hex I.
  - cbn. now rewrite app_nil_r, skip_0.
  - cbn [read_hex]. rewrite next_idle by exact I.
    destruct (cursor_cases (skip 1 r)) as [[V E]|[V E]]; rewrite V, E.
    + cbn [negb orb length firstn forallb Nat.leb andb]. now exists 1.
    + cbn [negb orb length firstn forallb Nat.leb].
      destruct (isxdigit (peek (skip 1 r))) eqn:X; cbn [negb andb].
      * specialize (IH (skip 1 r) (hex ++ [peek (skip 1 r)]) I).
        destruct (_ && _).
        -- rewrite IH, !skip_skip, <- app_assoc. cbn [app].
           do 2 f_equal. lia.
        -- destruct IH as [m IH]. exists (m + 1). now rewrite IH, skip_skip.
      * rewrite andb_false_r. now exists 1.
Qed.

Section String_loop.

Variable quote : byte.

Lemma loop_meets_prepend k r value bs out p :
  loop_meets quote (skip k r) (value ++ bs) out p ->
  loop_meets quote r value out (prepend bs p).
Proof.
  destruct p as [d tl|e]; cbn [prepend loop_meets].
  - intros (n & -> & E). exists (n + k).
    now rewrite <- skip_skip, <- app_assoc.
  - destruct e; try (intros (n & ->); exists (n + k); now rewrite skip_skip).
    intros (v & n & -> & V). exists v, (n + k). now rewrite <- skip_skip.
Qed.

Lemma read_string_continue fuel r value bs k :
  idle r = true ->
  (forall r' value',
     idle r' = true -> valid r' = true -> length (rest r') < fuel ->
     loop_meets quote r' value' (read_string_loop fuel quote r' value' false)
                (spec_string quote (rest r'))) ->
  length (rest (skip k r)) < fuel ->
  loop_meets quote r value
    (if valid (skip k r)
     then read_string_loop fuel quote (skip k r) (value ++ bs) false
     else Val (value ++ bs) (skip k r))
    (prepend bs (spec_string quote (rest (skip k r)))).
Proof.
  intros I IH F. apply loop_meets_prepend with (k := k).
  destruct (cursor_cases (skip k r)) as [[V E]|[V E]]; rewrite V.
  - rewrite E. cbn [spec_string loop_meets].
    exists (value ++ bs), 0. now rewrite skip_0.
  - now apply IH.
Qed.

Lemma read_string_loop_spec : forall fuel r value,
  idle r = true -> valid r = true -> length (rest r) < fuel ->
  loop_meets quote r value (read_string_loop fuel quote r value false)
             (spec_string quote (rest r)).
Proof.
  induction fuel as [fuel IH] using lt_wf_ind. intros r value I V F.
  destruct fuel as [|fuel]; [lia|]. cbn [read_string_loop].
  pose proof (rest_valid r V) as E. rewrite E. cbn [spec_string].
  rewrite E in F. cbn [length] in F.
  destruct (peek r =? backslash) eqn:B.
  - rewrite next_idle by exact I.
    destruct (cursor_cases (skip 1 r)) as [[V1 E1]|[V1 E1]]; rewrite V1, E1.
    { cbn [loop_meets]. now exists value, 1. }
    rewrite E1 in F. cbn [length] in F. destruct fuel as [|fuel]; [lia|].
    cbn [read_string_loop]. rewrite read_escape_cases.
    rewrite skip_skip in *. cbn [Nat.add] in *.
    destruct (peek (skip 1 r) =? "u") eqn:U.
    + pose proof (read_hex_spec 4 (skip 1 r) [] I) as H.
      rewrite skip_skip in H. cbn [Nat.add] in H.
      assert (T : rest (skip 6 r) = skipn 4 (rest (skip 2 r)))
        by (now rewrite <- rest_skip, skip_skip).
      destruct (rest (skip 2 r)) as [|h1 [|h2 [|h3 [|h4 tl2]]]];
        cbn [length Nat.leb andb firstn] in H;
        try (destruct H as [m H]; rewrite H; cbn [bind loop_meets];
             exists (m + 1); now rewrite skip_skip).
      destruct (forallb isxdigit [h1; h2; h3; h4]).
      * rewrite H. cbn [bind app]. rewrite next_idle by exact I.
        rewrite !skip_skip. cbn [Nat.add skipn] in *. rewrite <- T.
        apply read_string_continue; trivial.
        -- apply IH. lia.
        -- rewrite T. cbn [length] in F. lia.
      * destruct H as [m H]. rewrite H. cbn [bind loop_meets].
        exists (m + 1). now rewrite skip_skip.
    + destruct (simple_escape (peek (skip 1 r))) as [d|]; cbn [bind].
      * rewrite next_idle by exact I. rewrite skip_skip. cbn [Nat.add].
        apply read_string_continue; trivial; [|lia].
        apply IH. lia.
      * cbn [loop_meets]. now exists 1.
  - destruct (peek r =? quote) eqn:Q.
    + apply Ascii.eqb_eq in Q. cbn [loop_meets]. exists 0.
      rewrite app_nil_r, skip_0, E, Q. now split.
    + rewrite next_idle by exact I.
      apply read_string_continue; trivial; [|lia].
      apply IH. lia.
Qed.

End String_loop.

Lemma read_string_spec fuel r :
  idle r = true -> valid r = true -> peek r <> NUL ->
  length (rest r) < fuel ->
  match spec_string (peek r) (rest (skip 1 r)) with
  | Closed d tl =>
      exists n, read_string fuel r = Val d (skip (2 + n) r) /\
                rest (skip (2 + n) r) = tl
  | StringFormat e => exists n, read_string fuel r = Throw e (skip n r)
  end.
Proof.
  intros I V Q F. unfold read_string. rewrite get_idle by exact I.
  rewrite (rest_valid r V) in F. cbn [length] in F.
  destruct (cursor_cases (skip 1 r)) as [[V1 E1]|[V1 E1]].
  - rewrite E1. cbn [spec_string].
    destruct fuel as [|fuel]; [lia|]. cbn [read_string_loop].
    rewrite (peek_invalid _ V1).
    change (NUL =? backslash) with false. cbv iota.
    replace (NUL =? peek r) with false
      by (symmetry; apply Ascii.eqb_neq; congruence).
    rewrite next_idle by exact I.
    rewrite (valid_skip_false 1 _ V1). cbn [bind].
    rewrite (valid_skip_false 1 _ V1). cbn [negb orb].
    exists 2. now rewrite skip_skip.
  - pose proof (read_string_loop_spec (peek r) fuel (skip 1 r) [] I V1) as L.
    specialize (L ltac:(lia)).
    destruct (spec_string (peek r) (rest (skip 1 r))) as [d tl|e].
    + destruct L as (n & -> & E). cbn [bind app].
      destruct (rest_nonempty_valid _ _ _ E) as [Vn Pn].
      rewrite Vn, Pn, Ascii.eqb_refl. cbn [negb orb].
      rewrite next_idle by exact I.
      assert (S : skip 1 (skip n (skip 1 r)) = skip (2 + n) r)
        by (rewrite !skip_skip; f_equal; lia).
      rewrite (rest_valid _ Vn), S in E. rewrite S.
      exists n. split; [reflexivity | congruence].
    + destruct e;
        try (destruct L as (n & ->); exists (n + 1); now rewrite skip_skip).
      destruct L as (v & n & -> & Vn). cbn [bind]. rewrite Vn. cbn [negb orb].
      exists (n + 1). now rewrite skip_skip.
Qed.

Lemma spec_string_rejects quote : forall s e,
  spec_string quote s = StringFormat e -> StringError e = true.
Proof.
  induction s as [s IH] using (induction_ltof1 _ (@length byte)).
  unfold ltof in IH. intros e.
  destruct s as [|c s]; cbn [spec_string]; [now intros [= <-]|].
  destruct (c =? backslash).
  - destruct s as [|g s]; [now intros [= <-]|].
    destruct (g =? "u").
    + destruct s as [|h1 [|h2 [|h3 [|h4 tl2]]]]; try (now intros [= <-]).
      destruct (forallb isxdigit _); [|now intros [= <-]].
      destruct (spec_string quote tl2) eqn:S; [discriminate|].
      cbn [prepend]. intros [= <-]. apply (IH tl2); [cbn; lia | exact S].
    + destruct (simple_escape g); [|now intros [= <-]].
      destruct (spec_string quote s) eqn:S; [discriminate|].
      cbn [prepend]. intros [= <-]. apply (IH s); [cbn; lia | exact S].
  - destruct (c =? quote); [discriminate|].
    destruct (spec_string quote s) eqn:S; [discriminate|].
    cbn [prepend]. intros [= <-]. apply (IH s); [cbn; lia | exact S].
Qed.

(** ** [next_token] on a quote *)

Lemma quote_class c :
  c = squote \/ c = dquote ->
  is_open_bracket c = false /\ is_close_bracket c = false /\
  is_separator c = false /\ isalpha c = false /\ (c =? "_") = false /\
  isdigit c = false /\ (c =? squote) || (c =? dquote) = true /\ c <> NUL.
Proof. intros [-> | ->]; repeat split; discriminate. Qed.

Lemma next_token_string_spec fuel r :
  idle r = true -> valid r = true ->
  peek r = squote \/ peek r = dquote ->
  length (rest r) < fuel ->
  match spec_string (peek r) (rest (skip 1 r)) with
  | Closed [] tl =>
      exists n,
        next_token fuel r =
        Val (token.mk token_kind.string (line r) (col r),
             [peek (skip (2 + n) r)])
            (skip (3 + n) r) /\
        rest (skip (2 + n) r) = tl
  | Closed d tl =>
      exists n,
        next_token fuel r =
        Val (token.mk token_kind.string (line r) (col r), d)
            (skip (2 + n) r) /\
        rest (skip (2 + n) r) = tl
  | StringFormat e => exists n, next_token fuel r = Throw e (skip n r)
  end.
Proof.
  intros I V Q F. unfold next_token. rewrite V. cbn [negb fst snd].
  destruct (quote_class _ Q) as (-> & -> & -> & -> & -> & -> & -> & N).
  cbn [orb].
  pose proof (read_string_spec fuel r I V N F) as S.
  destruct (spec_string (peek r) (rest (skip 1 r))) as [d tl|e].
  - destruct S as (n & -> & E). cbn [bind].
    destruct d as [|c d].
    + rewrite get_idle by exact I. rewrite skip_skip. now exists n.
    + now exists n.
  - destruct S as (n & ->). now exists n.
Qed.

(** ** Whitespace and keywords *)

Lemma after_space_frame c r :
  ifs (after_space c r) = ifs r /\ buffer (after_space c r) = buffer r /\
  shift (after_space c r) = S (shift r) /\
  (line (after_space c r), col (after_space c r)) =
    spec_position [c] (line r, col r).
Proof.
  unfold after_space, spec_position. cbn [fold_left fst snd].
  destruct (c =? LF); repeat split.
Qed.

Lemma after_spaces_frame l : forall r,
  ifs (after_spaces l r) = ifs r /\ buffer (after_spaces l r) = buffer r /\
  shift (after_spaces l r) = length l + shift r /\
  (line (after_spaces l r), col (after_spaces l r)) =
    spec_position l (line r, col r).
Proof.
  induction l as [|c l IH]; intros r; cbn [after_spaces].
  - repeat split.
  - destruct (IH (after_space c r)) as (A & B & C & D).
    destruct (after_space_frame c r) as (A' & B' & C' & D').
    rewrite A, B, C, D, A', B', C', D'. repeat split. cbn [length]. lia.
Qed.

Lemma read_whitespace_loop_idle : forall fuel r word,
  idle r = true -> length (rest r) < fuel ->
  read_whitespace_loop fuel r word =
  Val (word ++ take_while isspace (rest r))
      (after_spaces (take_while isspace (rest r)) r).
Proof.
  induction fuel as [|fuel IH]; intros r word I F; [lia|].
  cbn [read_whitespace_loop].
  destruct (cursor_cases r) as [[V E]|[V E]]; rewrite V, E;
    cbn [andb take_while].
  - cbn [after_spaces]. now rewrite app_nil_r.
  - destruct (isspace (peek r)) eqn:P.
    + set (r0 := if peek r =? LF then _ else r).
      assert (I0 : idle r0 = true) by (subst r0; now destruct (peek r =? LF)).
      assert (R0 : rest (skip 1 r0) = rest (skip 1 r))
        by (subst r0; now destruct (peek r =? LF)).
      assert (P0 : peek r0 = peek r) by (subst r0; now destruct (peek r =? LF)).
      rewrite get_idle by exact I0. rewrite P0.
      rewrite IH; [| exact I0 | rewrite R0; rewrite E in F; simpl in F; lia].
      rewrite R0, <- app_assoc. reflexivity.
    + cbn [after_spaces]. now rewrite app_nil_r.
Qed.

Lemma read_keyword_idle fuel r :
  idle r = true -> valid r = true -> length (rest r) < fuel ->
  read_keyword fuel r =
  Val (peek r :: take_while keyword_char (rest (skip 1 r)))
      (skip (S (length (take_while keyword_char (rest (skip 1 r))))) r).
Proof.
  intros I V F. unfold read_keyword. rewrite get_idle by exact I.
  rewrite get_while_idle by (trivial; now apply rest_skip_fuel).
  rewrite skip_skip. cbn [app]. do 2 f_equal. lia.
Qed.

(** ** One call of [next_token] away from quotes *)

Lemma advances_skip r lexeme tl :
  lexeme <> [] -> rest r = lexeme ++ tl ->
  advances r lexeme (skip (length lexeme) r).
Proof.
  intros N E. repeat split; trivial.
  now rewrite (rest_after _ _ _ E).
Qed.

Lemma advances_one r :
  valid r = true -> advances r [peek r] (skip 1 r).
Proof.
  intros V. apply (advances_skip r [peek r] (rest (skip 1 r)));
    [discriminate | now apply rest_valid].
Qed.

Ltac one_byte :=
  cbn [bind];
  match goal with I : idle ?r = true |- _ => rewrite (get_idle r I) end;
  split; [discriminate | split; [reflexivity | split; [reflexivity|]]];
  assumption.

Lemma next_token_plain fuel r :
  idle r = true -> valid r = true -> is_quote (peek r) = false ->
  length (rest r) < fuel ->
  match next_token fuel r with
  | Val (t, lexeme) r' =>
      token.kind t <> token_kind.eof /\
      token.line t = line r /\ token.col t = col r /\
      advances r lexeme r'
  | Throw e _ => NumberFormatError e = true
  | OutOfFuel => False
  end.
Proof.
  intros I V Q F. unfold next_token. rewrite V. cbn [negb fst snd].
  unfold is_quote in Q. rewrite Q.
  pose proof (advances_one r V) as A1.
  destruct (is_open_bracket (peek r)); [one_byte|].
  destruct (is_close_bracket (peek r)); [one_byte|].
  destruct (is_separator (peek r)); [one_byte|].
  destruct (isalpha (peek r) || (peek r =? "_")).
  { rewrite read_keyword_idle by assumption. cbn [bind].
    repeat split; try discriminate.
    rewrite (rest_valid r V) at 1. cbn [app]. f_equal.
    replace (skip (S (length (take_while keyword_char (rest (skip 1 r))))) r)
      with (skip (length (take_while keyword_char (rest (skip 1 r))))
                 (skip 1 r))
      by (rewrite skip_skip; f_equal; lia).
    rewrite (rest_skip _ (skip 1 r)), skipn_take_while.
    symmetry. apply take_drop_while. }
  destruct (isdigit (peek r)).
  { rewrite read_number_spec by assumption.
    destruct (spec_number (rest r)) as [k lexeme tl|e n] eqn:S.
    - pose proof (spec_number_kind _ _ _ _ S) as K.
      apply spec_number_split in S as [S N]. cbn [bind].
      destruct lexeme as [|c lexeme]; [congruence|].
      split; [|split; [reflexivity|split; [reflexivity|]]].
      + cbn. destruct K as [-> | ->]; discriminate.
      + now apply advances_skip with (tl := tl).
    - cbn [bind]. now apply spec_number_rejects in S. }
  destruct (isspace (peek r)) eqn:W.
  { unfold read_whitespace. rewrite read_whitespace_loop_idle by assumption.
    cbn [bind app].
    destruct (after_spaces_frame (take_while isspace (rest r)) r)
      as (A & B & C & _).
    assert (N : take_while isspace (rest r) <> []).
    { rewrite (rest_valid r V). cbn [take_while]. now rewrite W. }
    destruct (take_while isspace (rest r)) as [|c ws] eqn:T; [congruence|].
    repeat split; trivial; try discriminate.
    unfold rest at 2. rewrite B, C, <- skipn_skipn. fold (rest r).
    rewrite <- T, skipn_take_while. symmetry. apply take_drop_while. }
  one_byte.
Qed.

(** ** The token loop *)

Lemma idle_ifs r r' : ifs r' = ifs r -> idle r' = idle r.
Proof. unfold idle. now intros ->. Qed.

Lemma next_token_eof fuel r :
  valid r = false ->
  next_token fuel r = Val (token.mk token_kind.eof (line r) (col r), []) r.
Proof. intros V. unfold next_token. now rewrite V. Qed.

Lemma next_token_throws fuel r e r' :
  idle r = true -> valid r = true -> is_quote (peek r) = false ->
  length (rest r) < fuel ->
  next_token fuel r = Throw e r' ->
  isdigit (peek r) = true /\ exists n, spec_number (rest r) = NumberFormat e n.
Proof.
  intros I V Q F. unfold next_token. rewrite V. cbn [negb fst snd].
  unfold is_quote in Q. rewrite Q.
  destruct (is_open_bracket (peek r));
    [cbn [bind]; rewrite (get_idle r I); discriminate|].
  destruct (is_close_bracket (peek r));
    [cbn [bind]; rewrite (get_idle r I); discriminate|].
  destruct (is_separator (peek r));
    [cbn [bind]; rewrite (get_idle r I); discriminate|].
  destruct (isalpha (peek r) || (peek r =? "_")).
  { rewrite read_keyword_idle by assumption. cbn [bind]. discriminate. }
  destruct (isdigit (peek r)).
  { rewrite read_number_spec by assumption.
    destruct (spec_number (rest r)) as [k lexeme tl|e' n] eqn:S; cbn [bind].
    - destruct lexeme; [destruct (get _)|]; discriminate.
    - intros [= <- _]. eauto. }
  destruct (isspace (peek r)).
  { unfold read_whitespace. rewrite read_whitespace_loop_idle by assumption.
    cbn [bind app].
    destruct (take_while isspace (rest r)); [|discriminate].
    destruct (get _). discriminate. }
  cbn [bind]. rewrite (get_idle r I). discriminate.
Qed.

(** [tokens] ends as its trace does. *)
Lemma tokens_trace : forall calls fuel r,
  ends_as (tokens calls fuel r) (fst (token_trace calls fuel r))
          (snd (token_trace calls fuel r)).
Proof.
  induction calls as [|calls IH]; intros fuel r; cbn [token_trace tokens];
    [reflexivity|].
  destruct (next_token fuel r) as [[t lexeme] r'|e r'|]; cbn [bind];
    [|cbn; eauto|reflexivity].
  specialize (IH fuel r').
  destruct (token.kind t); try (cbn; eauto; fail);
    (destruct (token_trace calls fuel r') as [l [|e|]];
     cbn [fst snd ends_as] in *;
     [destruct IH as [r'' ->] | destruct IH as [r'' ->] | rewrite IH];
     cbn [bind]; eauto).
Qed.

(** The lexemes of a trace spell the input up to where the loop stopped. *)
Lemma token_trace_lexemes : forall calls fuel r,
  idle r = true -> no_quote (rest r) = true ->
  length (rest r) < calls -> length (rest r) < fuel ->
  exists tl,
    rest r = concat (map snd (fst (token_trace calls fuel r))) ++ tl /\
    stops_at (snd (token_trace calls fuel r)) tl.
Proof.
  induction calls as [|calls IH]; intros fuel r I Q C F; [lia|].
  cbn [token_trace].
  destruct (cursor_cases r) as [[V E]|[V E]].
  - rewrite next_token_eof by exact V. cbn. now exists [].
  - assert (Q1 : is_quote (peek r) = false).
    { rewrite E in Q. cbn in Q. apply andb_true_iff in Q as [Q _].
      now apply negb_true_iff in Q. }
    pose proof (next_token_plain fuel r I V Q1 F) as N.
    destruct (next_token fuel r) as [[t lexeme] r'|e r'|] eqn:T;
      [| |contradiction].
    + destruct N as (K & _ & _ & A & B & S & N & R).
      assert (L : length (rest r) = length lexeme + length (rest r'))
        by (now rewrite R, length_app).
      assert (L0 : 0 < length lexeme)
        by (destruct lexeme; [congruence|cbn; lia]).
      assert (Q' : no_quote (rest r') = true).
      { unfold no_quote in *. rewrite R, forallb_app in Q.
        now apply andb_true_iff in Q as [_ Q]. }
      destruct (IH fuel r' ltac:(now rewrite (idle_ifs _ _ A)) Q'
                   ltac:(lia) ltac:(lia)) as (tl & H1 & H2).
      destruct (token.kind t); try congruence;
        (destruct (token_trace calls fuel r') as [l e];
         cbn [fst snd map concat] in *; exists tl;
         split; [now rewrite R, H1, app_assoc | exact H2]).
    + destruct (next_token_throws fuel r e r' I V Q1 F T) as (D & n & S).
      exists (rest r). cbn. split; [reflexivity|].
      split; [now rewrite E | now exists n].
Qed.

Lemma rest_reader_of_string s : rest (reader_of_string s) = s.
Proof. reflexivity. Qed.

(** C3: an input without quote bytes (so without string literals and their
    escapes) on which no call throws is reproduced by the lexemes of the
    calls up to the one that returns [eof]; the loop needs no more calls
    than bytes, plus that one.  The loop throws exactly when a token begins
    with a digit at a number the grammar rejects; the lexemes returned
    until then spell the input before that number. *)
Theorem lexemes_reproduce_input (s : list byte) (calls fuel : nat) :
  no_quote s = true -> length s < calls -> length s < fuel ->
  ((forall e r', tokens calls fuel (reader_of_string s) <> Throw e r') ->
   exists l r',
     tokens calls fuel (reader_of_string s) = Val l r' /\
     concat (map snd l) = s) /\
  (let '(l, e) := token_trace calls fuel (reader_of_string s) in
   ends_as (tokens calls fuel (reader_of_string s)) l e /\
   exists tl, s = concat (map snd l) ++ tl /\ stops_at e tl).
Proof.
  intros Q C F.
  pose proof (tokens_trace calls fuel (reader_of_string s)) as T.
  destruct (token_trace_lexemes calls fuel (reader_of_string s)
              eq_refl Q C F) as (tl & R & S).
  rewrite rest_reader_of_string in R.
  destruct (token_trace calls fuel (reader_of_string s)) as [l e].
  cbn [fst snd] in *. split; [|split; [exact T | now exists tl]].
  intros N. destruct e as [|err|]; cbn [ends_as stops_at] in *.
  - destruct T as [r' T]. exists l, r'. split; [exact T|].
    subst tl. now rewrite app_nil_r in R.
  - destruct T as [r' T]. now apply N in T.
  - contradiction.
Qed.

Lemma lexemes_reproduce_input_witness :
  no_quote sample_source = true /\
  length sample_source < 30 /\
  (forall e r', tokens 30 30 (reader_of_string sample_source) <> Throw e r') /\
  exists l r',
    tokens 30 30 (reader_of_string sample_source) = Val l r' /\
    concat (map snd l) = sample_source.
Proof.
  assert (Q : no_quote sample_source = true) by reflexivity.
  assert (L : length sample_source < 30) by (vm_compute; lia).
  assert (N : forall e r',
             tokens 30 30 (reader_of_string sample_source) <> Throw e r')
    by (intros e r'; vm_compute; discriminate).
  split; [exact Q | split; [exact L | split; [exact N|]]].
  pose proof (lexemes_reproduce_input sample_source 30 30 Q L L) as [A _].
  exact (A N).
Defined.

(** The input 0123 has no quote byte and is not reproduced: the first call
    throws, whatever the number of calls allowed. *)
Lemma lexemes_reproduce_input_counterexample :
  no_quote (bytes "0123") = true /\
  (forall calls fuel l r',
     tokens calls fuel (reader_of_string (bytes "0123")) <> Val l r') /\
  thrown (tokens 5 5 (reader_of_string (bytes "0123")))
    = Some leading_zeros_are_not_allowed.
Proof.
  split; [reflexivity | split; [|reflexivity]].
  intros [|calls] fuel l r'; [discriminate|].
  cbn [tokens]. unfold next_token, read_number, number_integer_part.
  cbn. discriminate.
Qed.

(** ** Progress *)

Lemma is_quote_true c : is_quote c = true -> c = squote \/ c = dquote.
Proof.
  unfold is_quote. intros H. apply orb_true_iff in H as [H|H];
    apply Ascii.eqb_eq in H; auto.
Qed.

Lemma next_token_progress fuel r :
  idle r = true -> valid r = true -> length (rest r) < fuel ->
  match next_token fuel r with
  | Val (t, lexeme) r' =>
      token.kind t <> token_kind.eof /\ ifs r' = ifs r /\
      buffer r' = buffer r /\ shift r < shift r'
  | Throw e _ => True
  | OutOfFuel => False
  end.
Proof.
  intros I V F. destruct (is_quote (peek r)) eqn:Q.
  - apply is_quote_true in Q.
    pose proof (next_token_string_spec fuel r I V Q F) as S.
    destruct (spec_string (peek r) (rest (skip 1 r))) as [[|c d] tl|e];
      destruct S as (n & -> & _) || destruct S as (n & ->); trivial;
      repeat split; try discriminate; cbn; lia.
  - pose proof (next_token_plain fuel r I V Q F) as N.
    destruct (next_token fuel r) as [[t lexeme] r'| |]; trivial.
    destruct N as (K & _ & _ & A & B & S & N & R).
    repeat split; trivial. destruct lexeme; [congruence | cbn in S; lia].
Qed.

Lemma length_rest r : length (rest r) = length (buffer r) - shift r.
Proof. unfold rest. apply length_skipn. Qed.

Lemma valid_shift r : valid r = true -> shift r < length (buffer r).
Proof.
  unfold valid. intros H. apply andb_true_iff in H as [_ H].
  now apply Nat.ltb_lt in H.
Qed.

Lemma tokens_terminate : forall calls fuel r,
  idle r = true -> length (rest r) < calls -> length (rest r) < fuel ->
  match tokens calls fuel r with
  | Val l _ => length l <= length (rest r)
  | Throw _ _ => True
  | OutOfFuel => False
  end.
Proof.
  induction calls as [|calls IH]; intros fuel r I C F; [lia|].
  cbn [tokens].
  destruct (cursor_cases r) as [[V E]|[V E]].
  - rewrite next_token_eof by exact V. cbn. lia.
  - pose proof (next_token_progress fuel r I V F) as N.
    destruct (next_token fuel r) as [[t lexeme] r'| |]; trivial.
    destruct N as (K & A & B & S). cbn [bind].
    pose proof (valid_shift r V) as VS.
    assert (L : length (rest r') < length (rest r))
      by (rewrite !length_rest, B; lia).
    specialize (IH fuel r' ltac:(now rewrite (idle_ifs _ _ A))
                   ltac:(lia) ltac:(lia)).
    destruct (token.kind t); try congruence;
      (destruct (tokens calls fuel r') as [l r''| |]; cbn [bind]; trivial;
       cbn [length]; lia).
Qed.

(** C10: a call of [next_token] on a valid cursor that returns has moved
    [shift] forward by at least one byte of the same window, and it does
    return or throw; so on a source without a file behind it that holds [n]
    unread bytes the loop ends, with [eof] after at most [n] tokens unless a
    call throws. *)
Theorem next_token_consumes_input :
  (forall fuel r t lexeme r',
     idle r = true -> valid r = true -> length (rest r) < fuel ->
     next_token fuel r = Val (t, lexeme) r' ->
     shift r < shift r' /\ buffer r' = buffer r /\
     token.kind t <> token_kind.eof) /\
  (forall fuel r,
     idle r = true -> valid r = true -> length (rest r) < fuel ->
     next_token fuel r <> OutOfFuel) /\
  (forall n fuel r,
     ifstream.is_open (ifs r) = false ->
     length (buffer r) - shift r = n -> n < fuel ->
     match tokens (S n) fuel r with
     | Val l _ => length l <= n
     | Throw _ _ => True
     | OutOfFuel => False
     end).
Proof.
  split; [|split].
  - intros fuel r t lexeme r' I V F E.
    pose proof (next_token_progress fuel r I V F) as N.
    rewrite E in N. tauto.
  - intros fuel r I V F E.
    pose proof (next_token_progress fuel r I V F) as N.
    now rewrite E in N.
  - intros n fuel r O L F. rewrite <- length_rest in L. subst n.
    apply tokens_terminate; [|lia|exact F].
    unfold idle. now rewrite O.
Qed.

Lemma next_token_consumes_input_witness :
  ifstream.is_open (ifs sample_mixed) = false /\
  length (buffer sample_mixed) - shift sample_mixed = 15 /\
  match tokens 16 16 sample_mixed with
  | Val l _ => length l <= 15
  | Throw _ _ => True
  | OutOfFuel => False
  end.
Proof.
  assert (L : length (buffer sample_mixed) - shift sample_mixed = 15)
    by reflexivity.
  split; [reflexivity | split; [exact L |]].
  apply (proj2 (proj2 next_token_consumes_input) 15 16 sample_mixed
               eq_refl L (Nat.lt_succ_diag_r 15)).
Defined.

(** ** End of input *)

(** C8: on a cursor that is not valid [next_token] returns [eof] at the
    current position with an empty lexeme and leaves the reader as it was,
    window, [shift], [line] and [col] included; so any number of further
    calls do the same. *)
Theorem next_token_eof_idempotent (fuel : nat) (r : reader) :
  valid r = false ->
  next_token fuel r = Val (token.mk token_kind.eof (line r) (col r), []) r /\
  forall calls, 0 < calls -> tokens calls fuel r = Val [] r.
Proof.
  intros V. split; [now apply next_token_eof|].
  intros [|calls] C; [lia|]. cbn [tokens].
  now rewrite next_token_eof.
Qed.

Lemma next_token_eof_idempotent_witness :
  valid sample_exhausted = false /\
  next_token 0 sample_exhausted =
  Val (token.mk token_kind.eof 0 2, []) sample_exhausted.
Proof.
  split; [reflexivity|].
  apply (proj1 (next_token_eof_idempotent 0 sample_exhausted eq_refl)).
Defined.

(** ** [jump_to] *)

Lemma seekg_is_open f p :
  ifstream.is_open (ifstream.seekg f p) = ifstream.is_open f.
Proof.
  unfold ifstream.seekg.
  destruct (ifstream.failbit f); [|destruct (p <? 0)%Z]; reflexivity.
Qed.

Lemma seekg_eof f p : ifstream.eof (ifstream.seekg f p) = false.
Proof.
  unfold ifstream.seekg, ifstream.eof.
  destruct (ifstream.failbit f); [|destruct (p <? 0)%Z]; reflexivity.
Qed.

(** A refill that does read: the window after it. *)
Lemma refill_buffer_active r :
  ifstream.is_open (ifs r) = true -> ifstream.eof (ifs r) = false ->
  refill_buffer r =
  let got := fst (ifstream.read (ifs r) (max_buffer_size r)) in
  mk_reader (snd (ifstream.read (ifs r) (max_buffer_size r)))
            (if (Z.of_nat (length got) <? max_buffer_size r)%Z
             then resize (store (buffer r) got) (length got)
             else store (buffer r) got)
            (max_buffer_size r) (ifstream.tellg (ifs r)) (col r) (line r) 0.
Proof.
  intros O E. unfold refill_buffer. rewrite O, E. cbn [negb orb].
  now destruct (ifstream.read (ifs r) (max_buffer_size r)).
Qed.

(** C9: [jump_to] throws on a negative position whatever the source, and on
    a position beyond the window when no file is open, where a position up
    to the window's length becomes the new [shift].  With a file open every
    non-negative position is accepted and [line] and [col] are the
    arguments as given; but the origin is repositioned only on a stream
    that has not failed.  [seekg] does nothing once [failbit] is set, and
    no call of the reader clears it: after a read that fell short of the
    chunk size the stream stays where it was, the refill reads nothing and
    empties the window.  So a reader on a file that holds abc, jumped back
    to position 0, is at the end of its input. *)
Theorem jump_to_spec (r : reader) (position line' col' : Z) :
  ((position < 0)%Z ->
   jump_to r position line' col' = Throw position_is_out_of_range r) /\
  ((0 <= position)%Z -> ifstream.is_open (ifs r) = false ->
   (Z.of_nat (length (buffer r)) < position)%Z ->
   exists r', jump_to r position line' col' = Throw position_is_out_of_range r') /\
  ((0 <= position)%Z -> ifstream.is_open (ifs r) = false ->
   (position <= Z.of_nat (length (buffer r)))%Z ->
   jump_to r position line' col' =
   Val tt (mk_reader (ifs r) (buffer r) (max_buffer_size r) (offset r)
                     col' line' (Z.to_nat position))) /\
  ((0 <= position)%Z -> ifstream.is_open (ifs r) = true -> small_reads r ->
   exists r',
     jump_to r position line' col' = Val tt r' /\
     line r' = line' /\ col r' = col' /\ shift r' = 0 /\
     (ifstream.failbit (ifs r) = false ->
      offset r' = position /\
      ifstream.gpos (ifs r') =
        Z.to_nat position +
        length (firstn (Z.to_nat (max_buffer_size r))
                  (skipn (Z.to_nat position) (ifstream.origin (ifs r))))) /\
     (ifstream.failbit (ifs r) = true ->
      offset r' = (-1)%Z /\
      ifstream.gpos (ifs r') = ifstream.gpos (ifs r) /\
      ((0 < max_buffer_size r)%Z -> buffer r' = [] /\ valid r' = false))) /\
  (buffer sample_file = [NUL; NUL; NUL] /\
   ifstream.gpos (ifs sample_file) = 3 /\
   exists r',
     jump_to sample_file 0 0 0 = Val tt r' /\
     ifstream.gpos (ifs r') = 3 /\ buffer r' = [] /\
     returned (next_token 1 r') = Some (token.mk token_kind.eof 0 0, [])).
Proof.
  unfold jump_to. split; [|split; [|split; [|split]]].
  - intros H. apply Z.ltb_lt in H. now rewrite H.
  - intros P O L. apply Z.ltb_ge in P. rewrite P, O. cbn [negb].
    replace (_ <? _)%nat with true; [eauto|].
    symmetry. apply Nat.ltb_lt. cbn. lia.
  - intros P O L. apply Z.ltb_ge in P. rewrite P, O. cbn [negb].
    replace (_ <? _)%nat with false; [reflexivity|].
    symmetry. apply Nat.ltb_ge. cbn. lia.
  - intros P O _. apply Z.ltb_ge in P. rewrite P, O. cbn [negb].
    eexists. split; [reflexivity|]. cbn [line col set_col set_line].
    rewrite refill_buffer_active;
      [| cbn [ifs set_ifs]; now rewrite seekg_is_open
       | cbn [ifs set_ifs]; apply seekg_eof].
    cbn [offset shift buffer ifs set_ifs max_buffer_size].
    split; [reflexivity | split; [reflexivity | split; [reflexivity|]]].
    unfold ifstream.seekg, ifstream.tellg, ifstream.read, ifstream.good.
    split; intros H; rewrite H.
    + rewrite P. cbn. split; [lia | reflexivity].
    + cbn. split; [reflexivity | split; [reflexivity|]].
      intros M. apply Z.ltb_lt in M. now rewrite M.
  - split; [reflexivity | split; [reflexivity|]].
    eexists. repeat split.
Qed.

Lemma jump_to_spec_witness :
  (0 <= 0)%Z /\ ifstream.is_open (ifs sample_file) = true /\
  small_reads sample_file /\
  exists r',
    jump_to sample_file 0 5 7 = Val tt r' /\
    line r' = 5%Z /\ col r' = 7%Z /\ shift r' = 0 /\
    ifstream.gpos (ifs r') = 3 /\ buffer r' = [].
Proof.
  assert (P : (0 <= 0)%Z) by lia.
  assert (S : small_reads sample_file) by (vm_compute; discriminate).
  split; [exact P | split; [reflexivity | split; [exact S|]]].
  destruct (proj1 (proj2 (proj2 (proj2 (jump_to_spec sample_file 0 5 7))))
              P eq_refl S) as (r' & E & L & C & Sh & _ & F).
  destruct (F eq_refl) as (_ & G & B).
  exists r'. repeat split; trivial.
  apply B. reflexivity.
Defined.

(** ** Errors of string literals *)

(** C7: [read_string] on an opening quote throws exactly when the grammar
    rejects the bytes that follow it, with the grammar's error: a backslash
    before a byte that is no escape, a [u] escape short of four hexadecimal
    digits, or the end of input before the closing quote.  Each is a string
    error; on every other input [read_string] returns. *)
Theorem read_string_errors (fuel : nat) (r : reader) :
  idle r = true -> valid r = true -> is_quote (peek r) = true ->
  length (rest r) < fuel ->
  (forall e,
     thrown (read_string fuel r) = Some e <->
     spec_string (peek r) (rest (skip 1 r)) = StringFormat e) /\
  (forall e, thrown (read_string fuel r) = Some e -> StringError e = true) /\
  (forall d tl,
     spec_string (peek r) (rest (skip 1 r)) = Closed d tl ->
     returned (read_string fuel r) = Some d).
Proof.
  intros I V Q F. apply is_quote_true in Q.
  destruct (quote_class _ Q) as (_ & _ & _ & _ & _ & _ & _ & N).
  pose proof (read_string_spec fuel r I V N F) as S.
  destruct (spec_string (peek r) (rest (skip 1 r))) as [d tl|e0] eqn:P.
  - destruct S as (n & -> & _). cbn [thrown returned].
    repeat split; intros; congruence.
  - destruct S as (n & ->). cbn [thrown].
    repeat split; try congruence.
    intros e [= <-]. now apply spec_string_rejects in P.
Qed.

Lemma read_string_errors_witness :
  idle sample_bad_escape = true /\ valid sample_bad_escape = true /\
  is_quote (peek sample_bad_escape) = true /\
  length (rest sample_bad_escape) < 6 /\
  thrown (read_string 6 sample_bad_escape) = Some invalid_escape_sequence.
Proof.
  assert (F : length (rest sample_bad_escape) < 6) by (vm_compute; lia).
  split; [reflexivity | split; [reflexivity | split; [reflexivity |]]].
  split; [exact F|].
  apply (proj1 (read_string_errors 6 sample_bad_escape
                  eq_refl eq_refl eq_refl F)).
  reflexivity.
Defined.

(** ** String tokens *)

(** C2: on an opening quote [next_token] returns a [string] token at the
    start position whose lexeme is the decoded value, and stops right after
    the closing quote, whenever the decoded value is not empty.  When it is
    empty the lexeme is instead the byte after the closing quote (NUL at the
    end of the input) and the cursor is one byte further: the literal
    followed by [x] yields a string token with lexeme [x]. *)
Theorem next_token_string :
  (forall fuel r,
     idle r = true -> valid r = true -> is_quote (peek r) = true ->
     length (rest r) < fuel ->
     match spec_string (peek r) (rest (skip 1 r)) with
     | Closed [] tl =>
         exists n,
           next_token fuel r =
           Val (token.mk token_kind.string (line r) (col r),
                [peek (skip (2 + n) r)])
               (skip (3 + n) r) /\
           rest (skip (2 + n) r) = tl
     | Closed d tl =>
         exists n,
           next_token fuel r =
           Val (token.mk token_kind.string (line r) (col r), d)
               (skip (2 + n) r) /\
           rest (skip (2 + n) r) = tl
     | StringFormat e => exists n, next_token fuel r = Throw e (skip n r)
     end) /\
  spec_string dquote [dquote; "x"] = Closed [] ["x"] /\
  first_token [dquote; dquote; "x"] =
    Val (token.mk token_kind.string 0 0, ["x"])
        (skip 3 (reader_of_string [dquote; dquote; "x"])) /\
  first_token [squote; squote] =
    Val (token.mk token_kind.string 0 0, [NUL])
        (skip 3 (reader_of_string [squote; squote])) /\
  returned (first_token [dquote; "a"; backslash; "n"; "b"; dquote; "x"]) =
    Some (token.mk token_kind.string 0 0, ["a"; LF; "b"]) /\
  returned (first_token (dquote :: backslash :: bytes "u0041" ++ [dquote])) =
    Some (token.mk token_kind.string 0 0, ["A"]).
Proof.
  split; [|repeat split].
  intros fuel r I V Q F. apply next_token_string_spec; trivial.
  now apply is_quote_true.
Qed.

Lemma next_token_string_witness :
  idle sample_string = true /\ valid sample_string = true /\
  is_quote (peek sample_string) = true /\
  length (rest sample_string) < 7 /\
  exists n,
    next_token 7 sample_string =
    Val (token.mk token_kind.string 0 0, ["a"; "009"])
        (skip (2 + n) sample_string) /\
    rest (skip (2 + n) sample_string) = [";"].
Proof.
  assert (F : length (rest sample_string) < 7) by (vm_compute; lia).
  split; [reflexivity | split; [reflexivity | split; [reflexivity |]]].
  split; [exact F|].
  apply (proj1 next_token_string 7 sample_string eq_refl eq_refl eq_refl F).
Defined.

(** ** Positions *)

Lemma space_class c :
  isspace c = true ->
  is_open_bracket c = false /\ is_close_bracket c = false /\
  is_separator c = false /\ isalpha c = false /\ (c =? "_") = false /\
  isdigit c = false /\ (c =? squote) || (c =? dquote) = false.
Proof.
  destruct c as [[] [] [] [] [] [] [] []]; intros H;
    try discriminate H; repeat split.
Qed.

Lemma next_token_whitespace fuel r :
  idle r = true -> valid r = true -> isspace (peek r) = true ->
  length (rest r) < fuel ->
  exists r',
    next_token fuel r =
    Val (token.mk token_kind.whitespace (line r) (col r),
         take_while isspace (rest r)) r' /\
    (line r', col r') =
      spec_position (take_while isspace (rest r)) (line r, col r) /\
    rest r' = drop_while isspace (rest r).
Proof.
  intros I V W F. unfold next_token. rewrite V. cbn [negb fst snd].
  destruct (space_class _ W) as (-> & -> & -> & -> & -> & -> & ->).
  cbn [orb]. rewrite W. unfold read_whitespace.
  rewrite read_whitespace_loop_idle by assumption. cbn [bind app].
  destruct (after_spaces_frame (take_while isspace (rest r)) r)
    as (A & B & C & D).
  assert (N : take_while isspace (rest r) <> []).
  { rewrite (rest_valid r V). cbn [take_while]. now rewrite W. }
  destruct (take_while isspace (rest r)) as [|c ws] eqn:T; [congruence|].
  eexists. split; [reflexivity|]. split; [exact D|].
  unfold rest at 1. rewrite B, C, <- skipn_skipn. fold (rest r).
  now rewrite <- T, skipn_take_while.
Qed.

Lemma next_token_position fuel r t lexeme r' :
  next_token fuel r = Val (t, lexeme) r' ->
  token.line t = line r /\ token.col t = col r.
Proof.
  unfold next_token. destruct (valid r); cbn [negb fst snd];
    [|now intros [= <- _ _]].
  match goal with
  | |- bind ?m _ = _ -> _ => destruct m as [[k lex] r0| |]
  end; cbn [bind]; try discriminate.
  destruct lex; [unfold get|]; now intros [= <- _ _].
Qed.

(** Over [n] bytes a line grows by at most [n], and a column too, from
    where it was or from 0. *)
Lemma spec_position_bounds text : forall l c,
  let p := spec_position text (l, c) in
  (l <= fst p <= l + Z.of_nat (length text))%Z /\
  (Z.min c 0 <= snd p <= Z.max c 0 + Z.of_nat (length text))%Z.
Proof.
  unfold spec_position.
  induction text as [|a text IH]; intros l c; cbn [fold_left length fst snd].
  - lia.
  - destruct (a =? LF).
    + specialize (IH (l + 1)%Z 0%Z). cbn zeta in IH. lia.
    + specialize (IH l (c + 1)%Z). cbn zeta in IH. lia.
Qed.

(** A position that fits stays a pair of [int]s over the text. *)
Lemma spec_position_fits r text l' c' :
  position_fits r (length text) ->
  (l', c') = spec_position text (line r, col r) ->
  (INT_MIN <= l' <= INT_MAX)%Z /\ (INT_MIN <= c' <= INT_MAX)%Z.
Proof.
  intros (A & B & C & D & E) P.
  pose proof (spec_position_bounds text (line r) (col r)) as H.
  cbn zeta in H. rewrite <- P in H. cbn [fst snd] in H.
  unfold INT_MIN, INT_MAX in *. lia.
Qed.

(** C4: a newline inside a whitespace run moves the position to column 0
    of the next line and every other byte of the run moves it one column
    (as long as the position stays an [int] pair), as on the three tokens
    of a, newline, b.  A newline inside a string
    literal does not: [read_string] never changes [line], and the token
    after a literal that holds a newline is reported on the line of the
    opening quote, its column counted from there. *)
Theorem newline_positions :
  (forall fuel r,
     idle r = true -> valid r = true -> isspace (peek r) = true ->
     length (rest r) < fuel ->
     position_fits r (length (take_while isspace (rest r))) ->
     exists r',
       next_token fuel r =
       Val (token.mk token_kind.whitespace (line r) (col r),
            take_while isspace (rest r)) r' /\
       (line r', col r') =
         spec_position (take_while isspace (rest r)) (line r, col r) /\
       (INT_MIN <= line r' <= INT_MAX)%Z /\
       (INT_MIN <= col r' <= INT_MAX)%Z) /\
  positions ["a"; LF; "b"] =
    Some [(token_kind.keyword, 0, 0, ["a"]);
          (token_kind.whitespace, 0, 1, [LF]);
          (token_kind.keyword, 1, 0, ["b"])]%Z /\
  (forall fuel r t lexeme r',
     idle r = true -> valid r = true -> is_quote (peek r) = true ->
     length (rest r) < fuel ->
     next_token fuel r = Val (t, lexeme) r' -> line r' = line r) /\
  positions [squote; LF; squote; "b"] =
    Some [(token_kind.string, 0, 0, [LF]);
          (token_kind.keyword, 0, 3, ["b"])]%Z.
Proof.
  split; [|split; [reflexivity | split; [|reflexivity]]].
  - intros fuel r I V W F B.
    destruct (next_token_whitespace fuel r I V W F) as (r' & E & P & _).
    exists r'. split; [exact E | split; [exact P|]].
    now apply (spec_position_fits r (take_while isspace (rest r))).
  - intros fuel r t lexeme r' I V Q F E. apply is_quote_true in Q.
    pose proof (next_token_string_spec fuel r I V Q F) as S.
    destruct (spec_string (peek r) (rest (skip 1 r))) as [[|c d] tl|e];
      destruct S as (n & S & _) || destruct S as (n & S);
      rewrite S in E; now inversion E.
Qed.

Lemma newline_positions_witness :
  idle sample_mixed = true /\ valid (skip 2 sample_mixed) = true /\
  isspace (peek (skip 2 sample_mixed)) = true /\
  length (rest (skip 2 sample_mixed)) < 16 /\
  position_fits (skip 2 sample_mixed) 1 /\
  exists r',
    next_token 16 (skip 2 sample_mixed) =
    Val (token.mk token_kind.whitespace 0 2, [" "]) r' /\
    (line r', col r') = (0, 3)%Z /\
    (INT_MIN <= line r' <= INT_MAX)%Z /\ (INT_MIN <= col r' <= INT_MAX)%Z.
Proof.
  assert (F : length (rest (skip 2 sample_mixed)) < 16) by (vm_compute; lia).
  assert (B : position_fits (skip 2 sample_mixed) 1)
    by (vm_compute; repeat split; discriminate).
  split; [reflexivity | split; [reflexivity | split; [reflexivity |]]].
  split; [exact F | split; [exact B|]].
  apply (proj1 newline_positions 16 (skip 2 sample_mixed)
               eq_refl eq_refl eq_refl F B).
Defined.

(** ** Construction from a path *)

Lemma skipn_nil_bytes n : skipn n (@nil byte) = [].
Proof. now destruct n. Qed.

Lemma store_nil got : store [] got = [].
Proof. unfold store. cbn [length firstn app]. apply skipn_nil_bytes. Qed.

Lemma resize_nil n : resize [] n = repeat NUL n.
Proof.
  unfold resize. rewrite firstn_nil. cbn [length app]. now rewrite Nat.sub_0_r.
Qed.

(** The reader a path yields: the stream has read [got], the window is as
    many NUL bytes when that fell short of the chunk size and empty when it
    did not, and the position is the members' initial (-1, -1). *)
Lemma reader_of_path_window file size :
  let got := firstn (Z.to_nat size) file in
  let short := (Z.of_nat (length got) <? size)%Z in
  reader_of_path (Some file) size =
  Some (mk_reader
          (ifstream.mk true file (length got)
             (negb (Z.of_nat (length got) =? size)%Z)
             (negb (Z.of_nat (length got) =? size)%Z))
          (if short then repeat NUL (length got) else [])
          size 0%Z (-1)%Z (-1)%Z 0).
Proof.
  cbn [reader_of_path].
  change (ifstream.seekg (ifstream.opened file) 0)
    with (ifstream.mk true file 0 false false).
  rewrite refill_buffer_active by reflexivity.
  cbn -[store resize firstn Z.ltb Z.eqb Z.of_nat Z.to_nat length].
  rewrite store_nil, resize_nil. reflexivity.
Qed.

(** C5: a reader over a non-empty in-memory buffer starts at (0, 0), and a
    token carries the position the reader had when [next_token] was called,
    so its first token is at line 0, column 0.  A reader constructed from a
    path, on a file or with a chunk size that fits the window's inline
    storage, starts at (-1, -1): the constructor never assigns [line] and
    [col], and the first token of the reader on a file that holds one byte
    carries line -1, column -1. *)
Theorem start_position :
  (forall s, s <> [] ->
     line (reader_of_string s) = 0%Z /\ col (reader_of_string s) = 0%Z) /\
  (forall fuel r t lexeme r',
     next_token fuel r = Val (t, lexeme) r' ->
     token.line t = line r /\ token.col t = col r) /\
  (forall file size,
     fits_inline file size ->
     exists r, reader_of_path (Some file) size = Some r /\
               line r = (-1)%Z /\ col r = (-1)%Z) /\
  (exists r, reader_of_path (Some (bytes "a")) 4096 = Some r /\
             returned (next_token 1 r) =
             Some (token.mk token_kind.special_character (-1) (-1), [NUL])).
Proof.
  split; [|split; [|split]].
  - intros [|c s] N; [congruence | now split].
  - apply next_token_position.
  - intros file size _. rewrite reader_of_path_window. eexists.
    split; [reflexivity | now split].
  - eexists. split; reflexivity.
Qed.

Lemma start_position_witness :
  (bytes "x" <> [] /\
   line (reader_of_string (bytes "x")) = 0%Z /\
   col (reader_of_string (bytes "x")) = 0%Z) /\
  (fits_inline (bytes "abc") 4096 /\
   exists r, reader_of_path (Some (bytes "abc")) 4096 = Some r /\
             line r = (-1)%Z /\ col r = (-1)%Z).
Proof.
  assert (N : bytes "x" <> []) by discriminate.
  assert (S : fits_inline (bytes "abc") 4096) by (vm_compute; discriminate).
  split; split; [exact N | | exact S |].
  - apply (proj1 start_position (bytes "x") N).
  - apply (proj1 (proj2 (proj2 start_position)) (bytes "abc") 4096%Z S).
Defined.

(** C6: construction from a path does call [refill_buffer], and the stream
    does read up to the chunk size; but the window is the string's value,
    which was empty, so (the read fitting its inline storage) it stays
    empty when a full chunk was read and is resized to NUL bytes when fewer
    bytes were there: the file's first byte is not what [peek] yields. *)
Theorem refill_window :
  (forall file size,
     fits_inline file size ->
     exists r, reader_of_path (Some file) size = Some r /\
               buffer r = repeat NUL (length (buffer r)) /\
               ifstream.gpos (ifs r) = length (firstn (Z.to_nat size) file)) /\
  (forall file size,
     (size <= Z.of_nat (length file))%Z -> (size <= inline_capacity)%Z ->
     exists r, reader_of_path (Some file) size = Some r /\ valid r = false) /\
  (exists r, reader_of_path (Some (bytes "ab")) 2 = Some r /\
             buffer r = [] /\ valid r = false) /\
  (exists r, reader_of_path (Some (bytes "abc")) 4096 = Some r /\
             buffer r = [NUL; NUL; NUL] /\ valid r = true /\ peek r = NUL).
Proof.
  split; [|split; [|split]].
  - intros file size _. rewrite reader_of_path_window. eexists.
    split; [reflexivity|]. split; [|reflexivity]. cbn [buffer].
    destruct (_ <? _)%Z; [|reflexivity]. now rewrite repeat_length.
  - intros file size L _. rewrite reader_of_path_window. eexists.
    split; [reflexivity|]. unfold valid. cbn [buffer shift].
    replace (_ <? _)%Z with false; [reflexivity|].
    symmetry. apply Z.ltb_ge. rewrite length_firstn. lia.
  - eexists. repeat split.
  - eexists. repeat split.
Qed.

Lemma refill_window_witness :
  (2 <= Z.of_nat (length (bytes "ab")))%Z /\ (2 <= inline_capacity)%Z /\
  exists r, reader_of_path (Some (bytes "ab")) 2 = Some r /\ valid r = false.
Proof.
  assert (L : (2 <= Z.of_nat (length (bytes "ab")))%Z) by (vm_compute; discriminate).
  assert (S : (2 <= inline_capacity)%Z) by (vm_compute; discriminate).
  split; [exact L | split; [exact S|]].
  apply (proj1 (proj2 refill_window) (bytes "ab") 2%Z L S).
Defined.

(** ** Every reader the interface can build reads from an idle window

    A file-backed window is non-empty only after a short read, which leaves
    [eofbit] and [failbit] set; so whenever the cursor is valid no refill
    can happen, and the lemmas above on idle readers apply. *)

Lemma window_inv_idle r : window_inv r -> valid r = true -> idle r = true.
Proof.
  unfold idle, ifstream.eof. intros [O | [B | (E & _)]] V.
  - now rewrite O.
  - unfold valid in V. now rewrite B in V.
  - rewrite E. apply orb_true_r.
Qed.

Lemma window_inv_frame r r' :
  ifs r' = ifs r -> buffer r' = buffer r ->
  max_buffer_size r' = max_buffer_size r -> window_inv r -> window_inv r'.
Proof. unfold window_inv. now intros -> -> ->. Qed.

Lemma refill_active_inv r :
  ifstream.is_open (ifs r) = true -> ifstream.eof (ifs r) = false ->
  buffer r = [] \/
    (ifstream.failbit (ifs r) = true /\ (0 < max_buffer_size r)%Z) ->
  window_inv (refill_buffer r).
Proof.
  intros O E H. rewrite refill_buffer_active by assumption.
  unfold window_inv, ifstream.read, ifstream.good. unfold ifstream.eof in E.
  cbn [ifs buffer max_buffer_size]. rewrite E. cbn [negb andb].
  destruct (ifstream.failbit (ifs r)) eqn:Fl; cbn [negb fst snd length].
  - right. left. destruct H as [B | [_ M]].
    + rewrite B, store_nil. destruct (_ <? _)%Z; [apply resize_nil | reflexivity].
    + apply Z.ltb_lt in M. cbn. now rewrite M.
  - destruct H as [B | [H _]]; [|discriminate].
    rewrite B, store_nil, resize_nil.
    destruct (_ <? _)%Z eqn:L; [|now right; left].
    right. right. cbn. apply Z.ltb_lt in L.
    replace (_ =? _)%Z with false by (symmetry; apply Z.eqb_neq; lia).
    repeat split. lia.
Qed.

Lemma window_inv_refill r : window_inv r -> window_inv (refill_buffer r).
Proof.
  intros W.
  destruct (ifstream.is_open (ifs r)) eqn:O;
    [|unfold refill_buffer; now rewrite O].
  destruct (ifstream.eof (ifs r)) eqn:E;
    [unfold refill_buffer; now rewrite O, E|].
  apply refill_active_inv; trivial.
  destruct W as [W | [W | (W & _)]]; [congruence | now left |].
  unfold ifstream.eof in E. congruence.
Qed.

Lemma window_inv_next r : window_inv r -> window_inv (next r).
Proof.
  intros W. unfold next.
  destruct (_ <=? _)%nat; [apply window_inv_refill|]; revert W;
    now apply window_inv_frame.
Qed.

Lemma inv_out_bind {A B : Type} (m : outcome A) (k : A -> reader -> outcome B) :
  inv_out m -> (forall a r, window_inv r -> inv_out (k a r)) ->
  inv_out (bind m k).
Proof. destruct m; cbn; auto. Qed.

Lemma inv_get_while p : forall fuel r word,
  window_inv r -> inv_out (get_while p fuel r word).
Proof.
  induction fuel as [|fuel IH]; intros r word W; cbn [get_while]; [exact I|].
  destruct (valid r && p (peek r)); [|exact W].
  unfold get. apply IH. now apply window_inv_next.
Qed.

Lemma inv_read_whitespace_loop : forall fuel r word,
  window_inv r -> inv_out (read_whitespace_loop fuel r word).
Proof.
  induction fuel as [|fuel IH]; intros r word W; cbn [read_whitespace_loop];
    [exact I|].
  destruct (valid r && isspace (peek r)); [|exact W].
  unfold get. apply IH. apply window_inv_next.
  destruct (peek r =? LF); [revert W; now apply window_inv_frame | exact W].
Qed.

Lemma inv_read_number fuel r : window_inv r -> inv_out (read_number fuel r).
Proof.
  intros W. unfold read_number.
  apply inv_out_bind.
  { unfold number_integer_part, get.
    pose proof (window_inv_next r W) as W1.
    destruct (valid r && (peek r =? "0")).
    - now destruct (valid (next r) && isdigit (peek (next r))).
    - destruct (valid r && isdigit (peek r)); [|exact W].
      now apply inv_get_while. }
  intros number r1 W1. apply inv_out_bind.
  { unfold number_fraction, get.
    pose proof (window_inv_next r1 W1) as W2.
    destruct (valid r1 && (peek r1 =? ".")); [|exact W1].
    destruct (negb (valid (next r1)) || negb (isdigit (peek (next r1))));
      [exact W2|].
    apply inv_out_bind; [now apply inv_get_while | now intros]. }
  intros [is_float number'] r2 W2. apply inv_out_bind; [|now intros [? ?] ?].
  unfold number_exponent, get.
  pose proof (window_inv_next r2 W2) as W3.
  pose proof (window_inv_next _ W3) as W4.
  destruct (valid r2 && ((peek r2 =? "e") || (peek r2 =? "E"))); [|exact W2].
  destruct (valid (next r2) && _).
  - destruct (negb (valid (next (next r2))) || _); [exact W4|].
    apply inv_out_bind; [now apply inv_get_while | now intros].
  - destruct (negb (valid (next r2)) || _); [exact W3|].
    apply inv_out_bind; [now apply inv_get_while | now intros].
Qed.

Lemma inv_read_hex : forall n r hex,
  window_inv r -> inv_out (read_hex n r hex).
Proof.
  induction n as [|n IH]; intros r hex W; cbn [read_hex]; [exact W|].
  pose proof (window_inv_next r W) as W1.
  destruct (negb (valid (next r)) || _); [exact W1 | now apply IH].
Qed.

Lemma inv_read_escape r c : window_inv r -> inv_out (read_escape r c).
Proof.
  intros W. unfold read_escape.
  repeat match goal with
         | |- inv_out (if ?b then _ else _) => destruct b; [exact W|]
         end.
  destruct (c =? "u"); [|exact W].
  apply inv_out_bind; [now apply inv_read_hex | now intros].
Qed.

Lemma inv_read_string_loop quote : forall fuel r value b,
  window_inv r -> inv_out (read_string_loop fuel quote r value b).
Proof.
  induction fuel as [|fuel IH]; intros r value b W; cbn [read_string_loop];
    [exact I|].
  pose proof (window_inv_next r W) as W1.
  destruct b.
  - apply inv_out_bind; [now apply inv_read_escape|].
    intros bs r1 W2. pose proof (window_inv_next r1 W2) as W3.
    destruct (valid (next r1)); [now apply IH | exact W3].
  - destruct (peek r =? backslash).
    + destruct (valid (next r)); [now apply IH | exact W1].
    + destruct (peek r =? quote); [exact W|].
      destruct (valid (next r)); [now apply IH | exact W1].
Qed.

Lemma inv_read_string fuel r : window_inv r -> inv_out (read_string fuel r).
Proof.
  intros W. unfold read_string, get.
  apply inv_out_bind; [apply inv_read_string_loop; now apply window_inv_next|].
  intros value r1 W1.
  destruct (negb (valid r1) || _); [exact W1 | now apply window_inv_next].
Qed.

Lemma inv_next_token fuel r : window_inv r -> inv_out (next_token fuel r).
Proof.
  intros W. unfold next_token. destruct (negb (valid r)); [exact W|].
  apply inv_out_bind.
  - repeat match goal with
           | |- inv_out (if ?b then _ else _) => destruct b; try exact W
           end.
    + apply inv_out_bind; [|now intros].
      unfold read_keyword, get. apply inv_get_while.
      now apply window_inv_next.
    + now apply inv_read_number.
    + apply inv_out_bind; [now apply inv_read_string | now intros].
    + apply inv_out_bind; [now apply inv_read_whitespace_loop | now intros].
  - intros [t lexeme] r1 W1. destruct lexeme; [|exact W1].
    unfold get. now apply window_inv_next.
Qed.

Lemma inv_jump_to r position line' col' :
  window_inv r -> inv_out (jump_to r position line' col').
Proof.
  intros W. unfold jump_to. destruct (position <? 0)%Z; [exact W|].
  destruct (ifstream.is_open (ifs r)) eqn:O; cbn [negb].
  - cbn [inv_out]. eapply window_inv_frame; [reflexivity..|].
    apply refill_active_inv; cbn [ifs set_ifs buffer max_buffer_size].
    + now rewrite seekg_is_open.
    + apply seekg_eof.
    + destruct W as [W | [W | (_ & Fl & M)]]; [congruence | now left | right].
      split; [|exact M]. unfold ifstream.seekg. now rewrite Fl.
  - destruct (_ <? _)%nat; cbn [inv_out]; left; exact O.
Qed.

Lemma window_inv_reader_of_string s : window_inv (reader_of_string s).
Proof. now left. Qed.

Lemma window_inv_reader_of_path file size r :
  reader_of_path (Some file) size = Some r -> window_inv r.
Proof.
  rewrite reader_of_path_window. intros [= <-]. unfold window_inv.
  cbn [ifs buffer max_buffer_size ifstream.eofbit ifstream.failbit].
  destruct (_ <? _)%Z eqn:L; [|now right; left].
  right. right. apply Z.ltb_lt in L.
  replace (_ =? _)%Z with false by (symmetry; apply Z.eqb_neq; lia).
  repeat split. lia.
Qed.

(** * Further properties *)

(** ** Identifiers and one-byte tokens *)

Lemma take_while_all p l : forallb p (take_while p l) = true.
Proof.
  induction l as [|c l IH]; cbn; [reflexivity|].
  destruct (p c) eqn:P; cbn; [now rewrite P | reflexivity].
Qed.

Lemma drop_while_head p l :
  match drop_while p l with c :: _ => p c = false | [] => True end.
Proof.
  induction l as [|c l IH]; cbn; [exact I|].
  destruct (p c) eqn:P; [exact IH | exact P].
Qed.

Lemma keyword_class c :
  isalpha c || (c =? "_") = true ->
  is_open_bracket c = false /\ is_close_bracket c = false /\
  is_separator c = false /\ keyword_char c = true.
Proof.
  destruct c as [[] [] [] [] [] [] [] []]; intros H;
    try discriminate H; repeat split.
Qed.

(** X1: on a letter or an underscore [next_token] returns a keyword token at
    the start position; the lexeme is that byte and the longest run of
    letters, digits and underscores after it, the cursor stops on the
    first byte that is none of them, and no error is thrown. *)
Theorem next_token_keyword (fuel : nat) (r : reader) :
  idle r = true -> valid r = true ->
  isalpha (peek r) || (peek r =? "_") = true ->
  length (rest r) < fuel ->
  let run := take_while keyword_char (rest (skip 1 r)) in
  next_token fuel r =
    Val (token.mk token_kind.keyword (line r) (col r), peek r :: run)
        (skip (S (length run)) r) /\
  forallb keyword_char (peek r :: run) = true /\
  rest (skip (S (length run)) r) = drop_while keyword_char (rest (skip 1 r)) /\
  match rest (skip (S (length run)) r) with
  | c :: _ => keyword_char c = false
  | [] => True
  end.
Proof.
  intros I V K F run.
  assert (R : rest (skip (S (length run)) r) =
              drop_while keyword_char (rest (skip 1 r))).
  { replace (skip (S (length run)) r) with (skip (length run) (skip 1 r))
      by (rewrite skip_skip; f_equal; lia).
    rewrite (rest_skip _ (skip 1 r)). apply skipn_take_while. }
  destruct (keyword_class _ K) as (B1 & B2 & B3 & KC).
  split; [|split; [|split; [exact R|]]].
  - unfold next_token. rewrite V. cbn [negb fst snd].
    rewrite B1, B2, B3, K. rewrite read_keyword_idle by assumption.
    reflexivity.
  - cbn [forallb]. rewrite KC. apply take_while_all.
  - rewrite R. apply drop_while_head.
Qed.

Lemma next_token_keyword_witness :
  idle sample_identifier = true /\ valid sample_identifier = true /\
  isalpha (peek sample_identifier) || (peek sample_identifier =? "_") = true /\
  length (rest sample_identifier) < 7 /\
  next_token 7 sample_identifier =
    Val (token.mk token_kind.keyword 0 0, bytes "_ab1")
        (skip 4 sample_identifier).
Proof.
  assert (F : length (rest sample_identifier) < 7) by (vm_compute; lia).
  split; [reflexivity | split; [reflexivity | split; [reflexivity |]]].
  split; [exact F|].
  apply (proj1 (next_token_keyword 7 sample_identifier
                  eq_refl eq_refl eq_refl F)).
Defined.

(** X2: on a byte that starts no keyword, number, string or whitespace run,
    [next_token] consumes exactly that byte: brackets and separators get
    their kinds, every other byte (NUL and bytes above 127 included) is a
    special character; no error is thrown. *)
Theorem next_token_one_byte (fuel : nat) (r : reader) :
  idle r = true -> valid r = true ->
  isalpha (peek r) || (peek r =? "_") = false ->
  isdigit (peek r) = false -> is_quote (peek r) = false ->
  isspace (peek r) = false ->
  next_token fuel r =
    Val (token.mk (one_byte_kind (peek r)) (line r) (col r), [peek r])
        (skip 1 r) /\
  rest r = peek r :: rest (skip 1 r).
Proof.
  intros I V K D Q W. split; [|now apply rest_valid].
  unfold next_token, one_byte_kind. rewrite V. cbn [negb fst snd].
  unfold is_quote in Q.
  destruct (is_open_bracket (peek r));
    [cbn [bind]; now rewrite get_idle|].
  destruct (is_close_bracket (peek r));
    [cbn [bind]; now rewrite get_idle|].
  destruct (is_separator (peek r));
    [cbn [bind]; now rewrite get_idle|].
  rewrite K, D, Q, W. cbn [bind]. now rewrite get_idle.
Qed.

Lemma next_token_one_byte_witness :
  idle (skip 1 sample_punctuation) = true /\
  valid (skip 1 sample_punctuation) = true /\
  next_token 0 (skip 1 sample_punctuation) =
    Val (token.mk token_kind.special_character 0 1, ["#"])
        (skip 1 (skip 1 sample_punctuation)).
Proof.
  split; [reflexivity | split; [reflexivity |]].
  apply (proj1 (next_token_one_byte 0 (skip 1 sample_punctuation)
                  eq_refl eq_refl eq_refl eq_refl eq_refl eq_refl)).
Defined.

(** ** [readln] *)

Lemma line_prefix_length m : forall s, length (line_prefix m s) <= m.
Proof.
  induction m as [|m IH]; intros [|c s]; cbn; try lia.
  destruct (c =? LF); cbn; [lia | specialize (IH s); lia].
Qed.

Lemma line_prefix_split m : forall s,
  line_prefix m s ++ skipn (length (line_prefix m s)) s = s.
Proof.
  induction m as [|m IH]; intros [|c s]; cbn; trivial.
  destruct (c =? LF); cbn; [reflexivity | now rewrite IH].
Qed.

(** A newline can only be the last byte of the text. *)
Lemma line_prefix_newline m : forall s,
  forallb (fun c => negb (c =? LF)) (removelast (line_prefix m s)) = true.
Proof.
  induction m as [|m IH]; intros [|c s]; cbn [line_prefix]; trivial.
  destruct (c =? LF) eqn:N; [reflexivity|].
  specialize (IH s). cbn [removelast].
  destruct (line_prefix m s) eqn:P; [reflexivity|].
  cbn [forallb]. rewrite N. exact IH.
Qed.

Lemma line_prefix_nonempty m s : 0 < m -> s <> [] -> line_prefix m s <> [].
Proof.
  destruct m as [|m]; [lia|]. destruct s as [|c s]; [congruence|].
  intros _ _. cbn. now destruct (c =? LF).
Qed.

Lemma spec_position_app a b p :
  spec_position (a ++ b) p = spec_position b (spec_position a p).
Proof. unfold spec_position. apply fold_left_app. Qed.

Lemma readln_loop_idle : forall fuel r data max_size,
  idle r = true -> length (rest r) < fuel ->
  let text := line_prefix (max_size - length data) (rest r) in
  exists r',
    readln_loop fuel r data max_size = Val (data ++ text) r' /\
    ifs r' = ifs r /\ buffer r' = buffer r /\
    shift r' = length text + shift r /\
    (line r', col r') = spec_position text (line r, col r).
Proof.
  induction fuel as [|fuel IH]; intros r data max_size I F; [lia|].
  cbn [readln_loop].
  destruct (cursor_cases r) as [[V E]|[V E]]; rewrite V, E; cbn [andb].
  - exists r. destruct (max_size - length data); cbn;
      now rewrite app_nil_r.
  - destruct (length data <? max_size)%nat eqn:L.
    + apply Nat.ltb_lt in L.
      destruct (max_size - length data) as [|m] eqn:M; [lia|].
      rewrite get_idle by exact I. cbn [line_prefix].
      destruct (peek r =? LF) eqn:N.
      * eexists. split; [reflexivity|]. cbn [length]. repeat split.
        unfold spec_position. cbn [fold_left fst snd]. now rewrite N.
      * destruct (IH (skip 1 r) (data ++ [peek r]) max_size I) as
          (r' & -> & A & B & C & D);
          [rewrite E in F; cbn [length] in F; lia|].
        replace (max_size - length (data ++ [peek r])) with m in *
          by (rewrite length_app; cbn [length]; lia).
        exists r'. rewrite <- app_assoc. split; [reflexivity|].
        rewrite A, B, C, D. cbn [length]. repeat split; [cbn; lia|].
        unfold spec_position at 2. cbn [fold_left fst snd]. now rewrite N.
    + apply Nat.ltb_ge in L.
      replace (max_size - length data) with 0 by lia.
      exists r. cbn. now rewrite app_nil_r.
Qed.

Lemma readln_idle fuel r max_size :
  idle r = true -> length (rest r) < fuel ->
  exists r',
    readln fuel r max_size =
      Val ((line r, col r), line_prefix max_size (rest r)) r' /\
    rest r = line_prefix max_size (rest r) ++ rest r' /\
    (line r', col r') =
      spec_position (line_prefix max_size (rest r)) (line r, col r) /\
    idle r' = true.
Proof.
  intros I F. unfold readln.
  destruct (readln_loop_idle fuel r [] max_size I F) as (r' & E & A & B & C & D).
  cbn [length app] in *. rewrite Nat.sub_0_r in *.
  rewrite E. cbn [bind]. exists r'. split; [reflexivity|].
  split; [|split; [exact D | now rewrite (idle_ifs _ _ A)]].
  unfold rest at 3. rewrite B, C, <- skipn_skipn. fold (rest r).
  symmetry. apply line_prefix_split.
Qed.

(** X3: [readln] returns the position it started at and the text up to and
    including the first newline, cut at [max_size] bytes; the unread input
    is what follows the text, and the position has moved over the text: one
    column per byte, to column 0 of the next line after the newline, the
    position staying an [int] pair over the text.  It never throws. *)
Theorem readln_spec (fuel : nat) (r : reader) (max_size : nat) :
  idle r = true -> length (rest r) < fuel ->
  position_fits r (length (line_prefix max_size (rest r))) ->
  let text := line_prefix max_size (rest r) in
  exists r',
    readln fuel r max_size = Val ((line r, col r), text) r' /\
    rest r = text ++ rest r' /\
    (line r', col r') = spec_position text (line r, col r) /\
    (INT_MIN <= line r' <= INT_MAX)%Z /\ (INT_MIN <= col r' <= INT_MAX)%Z /\
    idle r' = true /\
    length text <= max_size /\
    forallb (fun c => negb (c =? LF)) (removelast text) = true.
Proof.
  intros I F B text.
  destruct (readln_idle fuel r max_size I F) as (r' & E & R & D & I').
  destruct (spec_position_fits r text (line r') (col r') B D) as [Bl Bc].
  exists r'. repeat split; trivial; try apply Bl; try apply Bc.
  - apply line_prefix_length.
  - apply line_prefix_newline.
Qed.

Lemma readln_spec_witness :
  idle sample_lines = true /\ length (rest sample_lines) < 30 /\
  position_fits sample_lines
    (length (line_prefix 4096 (rest sample_lines))) /\
  exists r',
    readln 30 sample_lines 4096 =
      Val ((0, 0)%Z, bytes "Sehr geehrte," ++ [LF]) r' /\
    rest sample_lines = (bytes "Sehr geehrte," ++ [LF]) ++ rest r' /\
    (line r', col r') = (1, 0)%Z.
Proof.
  assert (F : length (rest sample_lines) < 30) by (vm_compute; lia).
  assert (B : position_fits sample_lines
                (length (line_prefix 4096 (rest sample_lines))))
    by (vm_compute; repeat split; discriminate).
  split; [reflexivity | split; [exact F | split; [exact B|]]].
  destruct (readln_spec 30 sample_lines 4096 eq_refl F B)
    as (r' & E & R & P & _).
  exists r'. split; [exact E | split; [exact R | exact P]].
Defined.

Lemma read_lines_reproduce max_size : forall calls fuel r,
  0 < max_size -> idle r = true ->
  length (rest r) < calls -> length (rest r) < fuel ->
  exists l r',
    read_lines calls fuel r max_size = Val l r' /\
    concat l = rest r /\ valid r' = false /\
    Forall (fun text => text <> [] /\ length text <= max_size) l.
Proof.
  induction calls as [|calls IH]; intros fuel r M I C F; [lia|].
  cbn [read_lines].
  destruct (readln_idle fuel r max_size I F) as (r' & E & R & _ & I').
  pose proof (line_prefix_length max_size (rest r)) as L.
  rewrite E. cbn [bind].
  destruct (cursor_cases r) as [[V Er]|[V Er]].
  - rewrite Er in *. assert (T : line_prefix max_size [] = [])
      by now destruct max_size.
    rewrite T in *. exists [], r'. repeat split; trivial.
    destruct (cursor_cases r') as [[V' _]|[_ E']]; [exact V'|].
    rewrite E' in R. discriminate.
  - assert (N : line_prefix max_size (rest r) <> []).
    { apply line_prefix_nonempty; [exact M | rewrite Er; discriminate]. }
    destruct (line_prefix max_size (rest r)) as [|c text] eqn:T; [congruence|].
    assert (Lr : length (rest r') < length (rest r))
      by (rewrite R, length_app; cbn [length]; lia).
    destruct (IH fuel r' M I' ltac:(lia) ltac:(lia))
      as (l & r'' & -> & Cc & V'' & Fa).
    cbn [bind]. exists ((c :: text) :: l), r''.
    repeat split; trivial.
    + cbn [concat]. now rewrite Cc, R.
    + constructor; [split; [discriminate | exact L] | exact Fa].
Qed.

(** X4: reading an in-memory input line by line with a positive [max_size]
    until [readln] returns no text gives texts that concatenate to the
    input, whatever its bytes; each is non-empty and within [max_size], and
    one call more than there are bytes is enough. *)
Theorem readln_reproduces_input (s : list byte) (max_size calls fuel : nat) :
  0 < max_size -> length s < calls -> length s < fuel ->
  exists l r',
    read_lines calls fuel (reader_of_string s) max_size = Val l r' /\
    concat l = s /\
    Forall (fun text => text <> [] /\ length text <= max_size) l.
Proof.
  intros M C F.
  destruct (read_lines_reproduce max_size calls fuel (reader_of_string s)
              M eq_refl C F) as (l & r' & E & Cc & _ & Fa).
  now exists l, r'.
Qed.

Lemma readln_reproduces_input_witness :
  0 < 4 /\ length (bytes "ab'c") < 5 /\
  exists l r',
    read_lines 5 5 (reader_of_string (bytes "ab'c")) 4 = Val l r' /\
    concat l = bytes "ab'c" /\
    Forall (fun text => text <> [] /\ length text <= 4) l.
Proof.
  assert (M : 0 < 4) by lia.
  assert (C : length (bytes "ab'c") < 5) by (vm_compute; lia).
  split; [exact M | split; [exact C|]].
  apply (readln_reproduces_input (bytes "ab'c") 4 5 5 M C C).
Defined.

(** ** What every call preserves

    Whatever [next], [set_line] and [set_col] preserve is preserved by
    every lexeme reader, by [next_token] and by [readln], whether they
    return or throw: they change the reader through these three only. *)

Section Preserved.

Variable P : reader -> Prop.
Hypothesis P_next : forall r, P r -> P (next r).
Hypothesis P_line : forall r l, P r -> P (set_line r l).
Hypothesis P_col : forall r c, P r -> P (set_col r c).

Lemma kept_bind {A B : Type} (m : outcome A) (k : A -> reader -> outcome B) :
  out_sat P m -> (forall a r, P r -> out_sat P (k a r)) ->
  out_sat P (bind m k).
Proof. destruct m; cbn; auto. Qed.

Lemma kept_get_while p : forall fuel r word,
  P r -> out_sat P (get_while p fuel r word).
Proof.
  induction fuel as [|fuel IH]; intros r word W; cbn [get_while]; [exact I|].
  destruct (valid r && p (peek r)); [|exact W].
  unfold get. apply IH. now apply P_next.
Qed.

Lemma kept_read_whitespace_loop : forall fuel r word,
  P r -> out_sat P (read_whitespace_loop fuel r word).
Proof.
  induction fuel as [|fuel IH]; intros r word W; cbn [read_whitespace_loop];
    [exact I|].
  destruct (valid r && isspace (peek r)); [|exact W].
  unfold get. apply IH. apply P_next.
  destruct (peek r =? LF); [now apply P_col, P_line | exact W].
Qed.

Lemma kept_read_number fuel r : P r -> out_sat P (read_number fuel r).
Proof.
  intros W. unfold read_number.
  apply kept_bind.
  { unfold number_integer_part, get.
    pose proof (P_next r W) as W1.
    destruct (valid r && (peek r =? "0")).
    - now destruct (valid (next r) && isdigit (peek (next r))).
    - destruct (valid r && isdigit (peek r)); [|exact W].
      now apply kept_get_while. }
  intros number r1 W1. apply kept_bind.
  { unfold number_fraction, get.
    pose proof (P_next r1 W1) as W2.
    destruct (valid r1 && (peek r1 =? ".")); [|exact W1].
    destruct (negb (valid (next r1)) || negb (isdigit (peek (next r1))));
      [exact W2|].
    apply kept_bind; [now apply kept_get_while | now intros]. }
  intros [is_float number'] r2 W2. apply kept_bind; [|now intros [? ?] ?].
  unfold number_exponent, get.
  pose proof (P_next r2 W2) as W3.
  pose proof (P_next _ W3) as W4.
  destruct (valid r2 && ((peek r2 =? "e") || (peek r2 =? "E"))); [|exact W2].
  destruct (valid (next r2) && _).
  - destruct (negb (valid (next (next r2))) || _); [exact W4|].
    apply kept_bind; [now apply kept_get_while | now intros].
  - destruct (negb (valid (next r2)) || _); [exact W3|].
    apply kept_bind; [now apply kept_get_while | now intros].
Qed.

Lemma kept_read_hex : forall n r hex, P r -> out_sat P (read_hex n r hex).
Proof.
  induction n as [|n IH]; intros r hex W; cbn [read_hex]; [exact W|].
  pose proof (P_next r W) as W1.
  destruct (negb (valid (next r)) || _); [exact W1 | now apply IH].
Qed.

Lemma kept_read_escape r c : P r -> out_sat P (read_escape r c).
Proof.
  intros W. unfold read_escape.
  repeat match goal with
         | |- out_sat P (if ?b then _ else _) => destruct b; [exact W|]
         end.
  destruct (c =? "u"); [|exact W].
  apply kept_bind; [now apply kept_read_hex | now intros].
Qed.

Lemma kept_read_string_loop quote : forall fuel r value b,
  P r -> out_sat P (read_string_loop fuel quote r value b).
Proof.
  induction fuel as [|fuel IH]; intros r value b W; cbn [read_string_loop];
    [exact I|].
  pose proof (P_next r W) as W1.
  destruct b.
  - apply kept_bind; [now apply kept_read_escape|].
    intros bs r1 W2. pose proof (P_next r1 W2) as W3.
    destruct (valid (next r1)); [now apply IH | exact W3].
  - destruct (peek r =? backslash).
    + destruct (valid (next r)); [now apply IH | exact W1].
    + destruct (peek r =? quote); [exact W|].
      destruct (valid (next r)); [now apply IH | exact W1].
Qed.

Lemma kept_read_string fuel r : P r -> out_sat P (read_string fuel r).
Proof.
  intros W. unfold read_string, get.
  apply kept_bind; [apply kept_read_string_loop; now apply P_next|].
  intros value r1 W1.
  destruct (negb (valid r1) || _); [exact W1 | now apply P_next].
Qed.

Lemma kept_next_token fuel r : P r -> out_sat P (next_token fuel r).
Proof.
  intros W. unfold next_token. destruct (negb (valid r)); [exact W|].
  apply kept_bind.
  - repeat match goal with
           | |- out_sat P (if ?b then _ else _) => destruct b; try exact W
           end.
    + apply kept_bind; [|now intros].
      unfold read_keyword, get. apply kept_get_while. now apply P_next.
    + now apply kept_read_number.
    + apply kept_bind; [now apply kept_read_string | now intros].
    + apply kept_bind; [now apply kept_read_whitespace_loop | now intros].
  - intros [t lexeme] r1 W1. destruct lexeme; [|exact W1].
    unfold get. now apply P_next.
Qed.

Lemma kept_readln_loop : forall fuel r data max_size,
  P r -> out_sat P (readln_loop fuel r data max_size).
Proof.
  induction fuel as [|fuel IH]; intros r data max_size W; cbn [readln_loop];
    [exact I|].
  destruct (valid r && _); [|exact W].
  unfold get. pose proof (P_next r W) as W1.
  destruct (peek r =? LF); [now apply P_col, P_line | now apply IH].
Qed.

Lemma kept_readln fuel r max_size : P r -> out_sat P (readln fuel r max_size).
Proof.
  intros W. unfold readln.
  apply kept_bind; [now apply kept_readln_loop | now intros].
Qed.

End Preserved.

(** ** Repositioning an in-memory reader *)

Lemma same_source_next r0 r :
  idle r0 = true -> same_source r0 r -> same_source r0 (next r).
Proof.
  intros I (A & B & C & D).
  rewrite next_idle by (now rewrite (idle_ifs _ _ A)).
  now repeat split.
Qed.

Lemma jump_to_in_range r p l c :
  ifstream.is_open (ifs r) = false ->
  (0 <= p <= Z.of_nat (length (buffer r)))%Z ->
  jump_to r p l c =
  Val tt (mk_reader (ifs r) (buffer r) (max_buffer_size r) (offset r)
                    c l (Z.to_nat p)).
Proof.
  intros O [P0 P1]. unfold jump_to. apply Z.ltb_ge in P0. rewrite P0, O.
  cbn [negb]. replace (_ <? _)%nat with false; [reflexivity|].
  symmetry. apply Nat.ltb_ge. cbn. lia.
Qed.

Lemma jump_to_same_source r0 r p l c :
  ifstream.is_open (ifs r0) = false -> same_source r0 r ->
  (0 <= p <= Z.of_nat (length (buffer r0)))%Z ->
  jump_to r p l c =
  Val tt (mk_reader (ifs r0) (buffer r0) (max_buffer_size r0) (offset r0)
                    c l (Z.to_nat p)).
Proof.
  intros O (A & B & C & D) P.
  rewrite jump_to_in_range by (now rewrite ?A, ?B).
  now rewrite A, B, C, D.
Qed.

(** X5: on an in-memory reader a jump to a position within the window lands on
    one and the same reader, whatever was read before: right away, after a
    [next_token] that returned, after one that threw, or after a [readln].
    The unread input is then the window from that offset on, and the
    position is the one supplied; a jump to 0, 0, 0 on a reader over a
    non-empty string gives back the reader as constructed. *)
Theorem jump_to_resynchronises (r : reader) (fuel : nat) (p l c : Z) :
  ifstream.is_open (ifs r) = false ->
  (0 <= p <= Z.of_nat (length (buffer r)))%Z ->
  let target :=
    mk_reader (ifs r) (buffer r) (max_buffer_size r) (offset r)
              c l (Z.to_nat p) in
  jump_to r p l c = Val tt target /\
  (forall a r', next_token fuel r = Val a r' ->
                jump_to r' p l c = Val tt target) /\
  (forall e r', next_token fuel r = Throw e r' ->
                jump_to r' p l c = Val tt target) /\
  (forall m a r', readln fuel r m = Val a r' ->
                  jump_to r' p l c = Val tt target) /\
  rest target = skipn (Z.to_nat p) (buffer r) /\
  (forall s, s <> [] ->
     jump_to (reader_of_string s) 0 0 0 = Val tt (reader_of_string s)).
Proof.
  intros O P target.
  assert (I : idle r = true) by (unfold idle; now rewrite O).
  assert (K : forall fuel, out_sat (same_source r) (next_token fuel r)).
  { intros f. apply kept_next_token; try (now repeat split).
    - intros r1. now apply same_source_next.
    - now intros r1 l1 (A & B & C & D).
    - now intros r1 c1 (A & B & C & D). }
  assert (Kl : forall m, out_sat (same_source r) (readln fuel r m)).
  { intros m. apply kept_readln; try (now repeat split).
    - intros r1. now apply same_source_next.
    - now intros r1 l1 (A & B & C & D).
    - now intros r1 c1 (A & B & C & D). }
  split; [now apply jump_to_in_range|].
  split; [|split; [|split; [|split]]].
  - intros a r' E. specialize (K fuel). rewrite E in K.
    now apply jump_to_same_source.
  - intros e r' E. specialize (K fuel). rewrite E in K.
    now apply jump_to_same_source.
  - intros m a r' E. specialize (Kl m). rewrite E in Kl.
    now apply jump_to_same_source.
  - reflexivity.
  - intros [|b s] N; [congruence | reflexivity].
Qed.

Lemma jump_to_resynchronises_witness :
  ifstream.is_open (ifs sample_malformed) = false /\
  (0 <= 4 <= Z.of_nat (length (buffer sample_malformed)))%Z /\
  thrown (next_token 7 sample_malformed) = Some expected_digit_after_decimal /\
  forall e r', next_token 7 sample_malformed = Throw e r' ->
    jump_to r' 4 0 4 =
    Val tt (mk_reader ifstream.closed (bytes "12.x 7") 0 (-1) 4 0 4).
Proof.
  assert (P : (0 <= 4 <= Z.of_nat (length (buffer sample_malformed)))%Z)
    by (vm_compute; split; discriminate).
  split; [reflexivity | split; [exact P | split; [reflexivity|]]].
  apply (proj1 (proj2 (proj2
           (jump_to_resynchronises sample_malformed 7 4 0 4 eq_refl P)))).
Defined.

(** X6: a jump beyond the window of an in-memory reader throws, but not before
    [shift] was set to the position: the reader it leaves has no valid
    cursor, so every later [next_token] returns [eof], at the line and
    column the reader had before the jump. *)
Theorem jump_to_failure_exhausts (r : reader) (p l c : Z) :
  ifstream.is_open (ifs r) = false ->
  (Z.of_nat (length (buffer r)) < p)%Z ->
  exists r',
    jump_to r p l c = Throw position_is_out_of_range r' /\
    shift r' = Z.to_nat p /\ valid r' = false /\
    forall fuel,
      next_token fuel r' =
      Val (token.mk token_kind.eof (line r) (col r), []) r'.
Proof.
  intros O P. unfold jump_to.
  replace (p <? 0)%Z with false by (symmetry; apply Z.ltb_ge; lia).
  rewrite O. cbn [negb].
  replace (_ <? _)%nat with true
    by (symmetry; apply Nat.ltb_lt; cbn; lia).
  eexists. split; [reflexivity|]. split; [reflexivity|].
  assert (V : valid (set_shift r (Z.to_nat p)) = false).
  { unfold valid. cbn [buffer shift set_shift].
    replace (_ <? _)%nat with false; [apply andb_false_r|].
    symmetry. apply Nat.ltb_ge. lia. }
  split; [exact V|]. intros fuel. now rewrite next_token_eof.
Qed.

Lemma jump_to_failure_exhausts_witness :
  ifstream.is_open (ifs sample_seek) = false /\
  (Z.of_nat (length (buffer sample_seek)) < 9)%Z /\
  exists r',
    jump_to sample_seek 9 5 5 = Throw position_is_out_of_range r' /\
    shift r' = 9 /\ valid r' = false /\
    forall fuel,
      next_token fuel r' = Val (token.mk token_kind.eof 0 0, []) r'.
Proof.
  assert (P : (Z.of_nat (length (buffer sample_seek)) < 9)%Z)
    by (vm_compute; reflexivity).
  split; [reflexivity | split; [exact P|]].
  apply (jump_to_failure_exhausts sample_seek 9 5 5 eq_refl P).
Defined.

(** ** The kind of a token and its first byte *)

Lemma read_number_kind fuel r k lexeme r' :
  read_number fuel r = Val (k, lexeme) r' ->
  k = token_kind.integer \/ k = token_kind.floating.
Proof.
  unfold read_number.
  destruct (number_integer_part fuel r) as [n1 r1| |]; cbn [bind];
    try discriminate.
  destruct (number_fraction fuel n1 r1) as [[f2 n2] r2| |]; cbn [bind];
    try discriminate.
  destruct (number_exponent fuel f2 n2 r2) as [[f3 n3] r3| |]; cbn [bind];
    try discriminate.
  intros [= <- _ _]. destruct f3; auto.
Qed.

Lemma next_token_first_byte fuel r t lexeme r' :
  next_token fuel r = Val (t, lexeme) r' ->
  first_byte_class (token.kind t) r /\
  (token.kind t <> token_kind.eof -> valid r = true /\ lexeme <> []) /\
  (token.kind t = token_kind.eof -> lexeme = [] /\ r' = r).
Proof.
  unfold next_token. destruct (valid r) eqn:V; cbn [negb fst snd].
  2:{ intros [= <- <- <-]. cbn. repeat split; congruence. }
  assert (F : forall k lex r0,
             (k <> token_kind.eof) -> first_byte_class k r ->
             match lex with
             | [] => let '(c, r1) := get r0 in
                     Val (token.mk k (line r) (col r), [c]) r1
             | _ => Val (token.mk k (line r) (col r), lex) r0
             end = Val (t, lexeme) r' ->
             first_byte_class (token.kind t) r /\
             (token.kind t <> token_kind.eof ->
              true = true /\ lexeme <> []) /\
             (token.kind t = token_kind.eof -> lexeme = [] /\ r' = r)).
  { intros k lex r0 K C E.
    destruct lex; [unfold get in E|]; injection E as <- <- <-; cbn;
      repeat split; try discriminate; trivial; congruence. }
  unfold is_quote.
  destruct (is_open_bracket (peek r)) eqn:B1;
    [apply (F token_kind.open_bracket [] r); [discriminate | exact B1]|].
  destruct (is_close_bracket (peek r)) eqn:B2;
    [apply (F token_kind.close_bracket [] r); [discriminate | exact B2]|].
  destruct (is_separator (peek r)) eqn:B3;
    [apply (F token_kind.separator [] r); [discriminate | exact B3]|].
  destruct (isalpha (peek r) || (peek r =? "_")) eqn:B4.
  { destruct (read_keyword fuel r) as [lex r0| |]; cbn [bind];
      try discriminate.
    apply (F token_kind.keyword lex r0); [discriminate | exact B4]. }
  destruct (isdigit (peek r)) eqn:B5.
  { destruct (read_number fuel r) as [[k lex] r0| |] eqn:N; cbn [bind];
      try discriminate.
    apply read_number_kind in N.
    apply (F k lex r0); destruct N as [-> | ->];
      try discriminate; exact B5. }
  destruct ((peek r =? squote) || (peek r =? dquote)) eqn:B6.
  { destruct (read_string fuel r) as [lex r0| |]; cbn [bind];
      try discriminate.
    apply (F token_kind.string lex r0); [discriminate | exact B6]. }
  destruct (isspace (peek r)) eqn:B7.
  { unfold read_whitespace.
    destruct (read_whitespace_loop fuel r []) as [lex r0| |]; cbn [bind];
      try discriminate.
    apply (F token_kind.whitespace lex r0); [discriminate | exact B7]. }
  apply (F token_kind.special_character [] r); [discriminate|].
  cbn. unfold is_quote. now repeat split.
Qed.

(** X7: a token's kind tells the class of the byte its lexeme began with, by
    the order of the tests in [next_token]; [eof] is returned exactly on a
    cursor that is not valid, with an empty lexeme and the reader as it
    was, and every other token has a non-empty lexeme.  This holds of every
    reader. *)
Theorem token_kind_by_first_byte
  (fuel : nat) (r : reader) (t : token.t) (lexeme : list byte) (r' : reader) :
  next_token fuel r = Val (t, lexeme) r' ->
  first_byte_class (token.kind t) r /\
  (token.kind t = token_kind.eof <-> valid r = false) /\
  (token.kind t = token_kind.eof <-> lexeme = []) /\
  (token.kind t = token_kind.eof -> r' = r).
Proof.
  intros E. destruct (next_token_first_byte fuel r t lexeme r' E)
    as (C & N & Z).
  split; [exact C|]. split; [|split].
  - split; intros H.
    + rewrite H in C. exact C.
    + destruct (token.kind t) eqn:K; trivial;
        destruct N as [V _]; congruence.
  - split; intros H.
    + now apply Z.
    + destruct (token.kind t) eqn:K; trivial;
        destruct N as [_ L]; congruence.
  - intros H. now apply Z.
Qed.

Lemma token_kind_by_first_byte_witness :
  next_token 4 (skip 7 sample_mixed) =
    Val (token.mk token_kind.string 0 7, bytes "a b") (skip 12 sample_mixed) /\
  first_byte_class token_kind.string (skip 7 sample_mixed).
Proof.
  assert (E : next_token 4 (skip 7 sample_mixed) =
              Val (token.mk token_kind.string 0 7, bytes "a b")
                  (skip 12 sample_mixed)) by reflexivity.
  split; [exact E|].
  apply (proj1 (token_kind_by_first_byte 4 (skip 7 sample_mixed) _ _ _ E)).
Defined.

(** ** Longest match *)

Lemma keyword_char_start c :
  keyword_char c = false ->
  isalpha c || (c =? "_") = false /\ isdigit c = false.
Proof.
  destruct c as [[] [] [] [] [] [] [] []]; intros H;
    try discriminate H; split; reflexivity.
Qed.

Lemma head_of_rest r c tl (p : byte -> bool) :
  rest r = c :: tl -> p c = false -> valid r = true -> p (peek r) = false.
Proof. intros E H V. rewrite (rest_valid r V) in E. congruence. Qed.

(** X8: keywords and whitespace runs are taken whole: the token after a
    whitespace token is never whitespace, and the token after a keyword is
    never a keyword or a number. *)
Theorem longest_match (fuel : nat) (r : reader)
  (t1 t2 : token.t) (l1 l2 : list byte) (r1 r2 : reader) :
  idle r = true -> length (rest r) < fuel ->
  next_token fuel r = Val (t1, l1) r1 ->
  next_token fuel r1 = Val (t2, l2) r2 ->
  (token.kind t1 = token_kind.whitespace ->
   token.kind t2 <> token_kind.whitespace) /\
  (token.kind t1 = token_kind.keyword ->
   token.kind t2 <> token_kind.keyword /\
   token.kind t2 <> token_kind.integer /\
   token.kind t2 <> token_kind.floating).
Proof.
  intros I F E1 E2.
  destruct (next_token_first_byte _ _ _ _ _ E1) as (C1 & N1 & _).
  destruct (next_token_first_byte _ _ _ _ _ E2) as (C2 & N2 & _).
  split; intros K1.
  - rewrite K1 in C1, N1. cbn [first_byte_class] in C1.
    destruct N1 as [V _]; [discriminate|].
    destruct (next_token_whitespace fuel r I V C1 F) as (r' & E & _ & R).
    rewrite E in E1. injection E1 as _ _ <-.
    intros K2. rewrite K2 in C2, N2. cbn [first_byte_class] in C2.
    destruct N2 as [V2 _]; [discriminate|].
    pose proof (drop_while_head isspace (rest r)) as H. rewrite <- R in H.
    rewrite (rest_valid _ V2) in H. congruence.
  - rewrite K1 in C1, N1. cbn [first_byte_class] in C1.
    destruct N1 as [V _]; [discriminate|].
    destruct (keyword_class _ C1) as (B1 & B2 & B3 & _).
    assert (E : next_token fuel r =
                Val (token.mk token_kind.keyword (line r) (col r),
                     peek r :: take_while keyword_char (rest (skip 1 r)))
                    (skip (S (length (take_while keyword_char
                                        (rest (skip 1 r))))) r)).
    { unfold next_token. rewrite V. cbn [negb fst snd].
      rewrite B1, B2, B3, C1. now rewrite read_keyword_idle. }
    rewrite E in E1. injection E1 as _ _ <-.
    set (run := take_while keyword_char (rest (skip 1 r))) in *.
    assert (R : rest (skip (S (length run)) r) =
                drop_while keyword_char (rest (skip 1 r))).
    { replace (skip (S (length run)) r) with (skip (length run) (skip 1 r))
        by (rewrite skip_skip; f_equal; lia).
      rewrite (rest_skip _ (skip 1 r)). apply skipn_take_while. }
    pose proof (drop_while_head keyword_char (rest (skip 1 r))) as H.
    rewrite <- R in H.
    assert (G : token.kind t2 <> token_kind.eof ->
                isalpha (peek (skip (S (length run)) r))
                || (peek (skip (S (length run)) r) =? "_") = false /\
                isdigit (peek (skip (S (length run)) r)) = false).
    { intros K. destruct (N2 K) as [V2 _].
      rewrite (rest_valid _ V2) in H. now apply keyword_char_start. }
    repeat split; intros K2;
      (destruct G as [G1 G2]; [rewrite K2; discriminate|]);
      rewrite K2 in C2; cbn [first_byte_class] in C2; congruence.
Qed.

Lemma longest_match_witness :
  idle (skip 2 sample_spaced) = true /\
  length (rest (skip 2 sample_spaced)) < 7 /\
  next_token 7 (skip 2 sample_spaced) =
    Val (token.mk token_kind.whitespace 0 2, bytes "  ")
        (skip 4 sample_spaced) /\
  next_token 7 (skip 4 sample_spaced) =
    Val (token.mk token_kind.keyword 0 4, bytes "cd")
        (skip 6 sample_spaced) /\
  token_kind.keyword <> token_kind.whitespace.
Proof.
  assert (F : length (rest (skip 2 sample_spaced)) < 7) by (vm_compute; lia).
  assert (E1 : next_token 7 (skip 2 sample_spaced) =
               Val (token.mk token_kind.whitespace 0 2, bytes "  ")
                   (skip 4 sample_spaced)) by reflexivity.
  assert (E2 : next_token 7 (skip 4 sample_spaced) =
               Val (token.mk token_kind.keyword 0 4, bytes "cd")
                   (skip 6 sample_spaced)) by reflexivity.
  split; [reflexivity | split; [exact F | split; [exact E1 |]]].
  split; [exact E2|].
  apply (proj1 (longest_match 7 (skip 2 sample_spaced) _ _ _ _ _ _
                  eq_refl F E1 E2) eq_refl).
Defined.

(** ** Token positions *)

Lemma spec_position_run l : forall p,
  forallb not_LF l = true ->
  spec_position l p = (fst p, (snd p + Z.of_nat (length l))%Z).
Proof.
  unfold spec_position.
  induction l as [|c l IH]; intros [ln cl] H.
  - cbn. f_equal. lia.
  - cbn [forallb] in H. apply andb_true_iff in H as [N H].
    unfold not_LF in N. apply negb_true_iff in N.
    cbn [fold_left]. rewrite N, IH by exact H. cbn [fst snd length].
    f_equal. lia.
Qed.

Lemma forallb_weaken (p q : byte -> bool) l :
  (forall c, p c = true -> q c = true) ->
  forallb p l = true -> forallb q l = true.
Proof.
  intros H. induction l as [|c l IH]; cbn; trivial.
  intros E. apply andb_true_iff in E as [E1 E2].
  now rewrite (H c E1), IH.
Qed.

Lemma keyword_char_not_LF c : keyword_char c = true -> not_LF c = true.
Proof.
  destruct c as [[] [] [] [] [] [] [] []]; intros H;
    try discriminate H; reflexivity.
Qed.

Lemma number_char_not_LF c : number_char c = true -> not_LF c = true.
Proof.
  destruct c as [[] [] [] [] [] [] [] []]; intros H;
    try discriminate H; reflexivity.
Qed.

Lemma isdigit_number_char c : isdigit c = true -> number_char c = true.
Proof. unfold number_char. now intros ->. Qed.

Lemma not_space_not_LF c : isspace c = false -> not_LF c = true.
Proof.
  destruct c as [[] [] [] [] [] [] [] []]; intros H;
    try discriminate H; reflexivity.
Qed.

Lemma digits_number_chars l :
  forallb number_char (take_while isdigit l) = true.
Proof.
  apply forallb_weaken with (p := isdigit);
    [apply isdigit_number_char | apply take_while_all].
Qed.

Lemma spec_number_chars s k lexeme tl :
  spec_number s = Number k lexeme tl -> forallb number_char lexeme = true.
Proof.
  unfold spec_number.
  destruct (spec_integer_part s) as [ip s1|] eqn:IP; [|discriminate].
  destruct (spec_fraction s1) as [fp s2|] eqn:FP; [|discriminate].
  destruct (spec_exponent s2) as [ep s3|] eqn:EP; [|discriminate].
  intros [= _ <- _]. rewrite !forallb_app.
  apply andb_true_iff. split; [|apply andb_true_iff; split].
  - unfold spec_integer_part in IP. destruct s as [|c s]; [discriminate|].
    destruct (c =? "0") eqn:Z0.
    + apply Ascii.eqb_eq in Z0. subst c.
      destruct s as [|d s]; [|destruct (isdigit d)]; now inversion IP.
    + destruct (isdigit c) eqn:D; inversion IP.
      apply (digits_number_chars (c :: s)).
  - unfold spec_fraction in FP. destruct s1 as [|c s1]; [now inversion FP|].
    destruct (c =? ".") eqn:Dot; [|now inversion FP].
    pose proof (digits_number_chars s1) as T.
    destruct (take_while isdigit s1); inversion FP.
    cbn [forallb] in *. rewrite T. unfold number_char. rewrite Dot.
    now rewrite !orb_true_r.
  - unfold spec_exponent in EP. destruct s2 as [|c s2]; [now inversion EP|].
    destruct ((c =? "e") || (c =? "E")) eqn:Ex; [|now inversion EP].
    assert (Nc : number_char c = true).
    { unfold number_char. apply orb_true_iff in Ex as [-> | ->];
        now rewrite !orb_true_r. }
    destruct s2 as [|g s2]; [now inversion EP|].
    destruct ((g =? "+") || (g =? "-")) eqn:Sg.
    + pose proof (digits_number_chars s2) as T.
      destruct (take_while isdigit s2); inversion EP.
      cbn [forallb app] in *. rewrite Nc, T.
      unfold number_char. apply orb_true_iff in Sg as [-> | ->];
        now rewrite !orb_true_r.
    + pose proof (digits_number_chars (g :: s2)) as T.
      destruct (take_while isdigit (g :: s2)); inversion EP.
      cbn [forallb app] in *. now rewrite Nc, T.
Qed.

(** Away from quotes the reader's position after a token is the position
    before it moved over the lexeme. *)
Lemma next_token_plain_position fuel r t lexeme r' :
  idle r = true -> valid r = true -> is_quote (peek r) = false ->
  length (rest r) < fuel ->
  next_token fuel r = Val (t, lexeme) r' ->
  (line r', col r') = spec_position lexeme (line r, col r).
Proof.
  intros I V Q F E.
  destruct (isspace (peek r)) eqn:W.
  { destruct (next_token_whitespace fuel r I V W F) as (r0 & E0 & P & _).
    rewrite E0 in E. now injection E as _ <- <-. }
  assert (S : forall n, forallb not_LF lexeme = true -> length lexeme = n ->
              r' = skip n r ->
              (line r', col r') = spec_position lexeme (line r, col r)).
  { intros n N L ->. rewrite spec_position_run by exact N.
    cbn. now rewrite L. }
  destruct (isalpha (peek r) || (peek r =? "_")) eqn:K.
  { destruct (keyword_class _ K) as (B1 & B2 & B3 & KC).
    unfold next_token in E. rewrite V in E. cbn [negb fst snd] in E.
    rewrite B1, B2, B3, K in E.
    rewrite read_keyword_idle in E by assumption. cbn [bind] in E.
    injection E as _ <- <-. eapply S; [|reflexivity|reflexivity].
    cbn [forallb]. rewrite (keyword_char_not_LF _ KC).
    apply forallb_weaken with (p := keyword_char);
      [apply keyword_char_not_LF | apply take_while_all]. }
  destruct (isdigit (peek r)) eqn:D.
  { destruct (digit_class _ D) as (B1 & B2 & B3 & _ & _).
    unfold next_token in E. rewrite V in E. cbn [negb fst snd] in E.
    rewrite B1, B2, B3, K, D in E.
    rewrite read_number_spec in E by assumption.
    destruct (spec_number (rest r)) as [k lex tl|e n] eqn:N;
      [|discriminate].
    pose proof (spec_number_chars _ _ _ _ N) as C.
    apply spec_number_split in N as [_ N]. cbn [bind] in E.
    destruct lex as [|c lex]; [congruence|].
    injection E as _ <- <-. eapply S; [|reflexivity|reflexivity].
    apply forallb_weaken with (p := number_char);
      [apply number_char_not_LF | exact C]. }
  unfold next_token in E. rewrite V in E. cbn [negb fst snd] in E.
  unfold is_quote in Q. rewrite K, D, Q, W in E.
  pose proof (not_space_not_LF _ W) as NL.
  destruct (is_open_bracket (peek r));
    [|destruct (is_close_bracket (peek r));
      [|destruct (is_separator (peek r))]];
    cbn [bind] in E; rewrite get_idle in E by exact I;
    injection E as _ <- <-;
    (apply (S 1); [cbn [forallb]; now rewrite NL | reflexivity | reflexivity]).
Qed.

Lemma token_trace_positioned : forall calls fuel r,
  idle r = true -> no_quote (rest r) = true ->
  length (rest r) < calls -> length (rest r) < fuel ->
  positioned (line r, col r) (fst (token_trace calls fuel r)).
Proof.
  induction calls as [|calls IH]; intros fuel r I Q C F; [lia|].
  cbn [token_trace].
  destruct (cursor_cases r) as [[V E]|[V E]].
  - rewrite next_token_eof by exact V. cbn. exact Logic.I.
  - assert (Q1 : is_quote (peek r) = false).
    { rewrite E in Q. cbn in Q. apply andb_true_iff in Q as [Q _].
      now apply negb_true_iff in Q. }
    pose proof (next_token_plain fuel r I V Q1 F) as N.
    destruct (next_token fuel r) as [[t lexeme] r'| |] eqn:T;
      try exact Logic.I.
    destruct N as (K & Tl & Tc & A & B & S & N & R).
    pose proof (next_token_plain_position fuel r t lexeme r' I V Q1 F T) as P.
    assert (L : length (rest r) = length lexeme + length (rest r'))
      by (now rewrite R, length_app).
    assert (L0 : 0 < length lexeme) by (destruct lexeme; [congruence|cbn; lia]).
    assert (Q' : no_quote (rest r') = true).
    { unfold no_quote in *. rewrite R, forallb_app in Q.
      now apply andb_true_iff in Q as [_ Q]. }
    specialize (IH fuel r' ltac:(now rewrite (idle_ifs _ _ A)) Q'
                   ltac:(lia) ltac:(lia)).
    destruct (token.kind t); try congruence;
      (destruct (token_trace calls fuel r') as [l e];
       cbn [fst positioned] in *; rewrite Tl, Tc, <- P; split;
       [reflexivity | exact IH]).
Qed.

(** X9: on an in-memory input without quote bytes, short enough for its
    positions to be [int]s, every token the loop returns is reported where
    the lexemes before it end: the first at (0, 0), each next one at the
    position of the previous moved over its lexeme, a newline starting the
    next line at column 0 and any other byte being one column.  The tokens
    are all those of the input when the loop reaches [eof], and those
    before the malformed number at which it throws otherwise. *)
Theorem token_positions (s : list byte) (calls fuel : nat) :
  s <> [] -> no_quote s = true -> length s < calls -> length s < fuel ->
  (Z.of_nat (length s) <= INT_MAX)%Z ->
  let '(l, e) := token_trace calls fuel (reader_of_string s) in
  positioned (0, 0)%Z l /\
  ends_as (tokens calls fuel (reader_of_string s)) l e /\
  exists tl, s = concat (map snd l) ++ tl /\ stops_at e tl.
Proof.
  intros N Q C F _.
  pose proof (token_trace_positioned calls fuel (reader_of_string s)
                eq_refl Q C F) as P.
  pose proof (tokens_trace calls fuel (reader_of_string s)) as T.
  destruct (token_trace_lexemes calls fuel (reader_of_string s)
              eq_refl Q C F) as (tl & R & S).
  rewrite rest_reader_of_string in R.
  destruct (token_trace calls fuel (reader_of_string s)) as [l e].
  cbn [fst snd] in *.
  split; [destruct s; [congruence | exact P] | split; [exact T|]].
  now exists tl.
Qed.

Lemma token_positions_witness :
  sample_partial <> [] /\ no_quote sample_partial = true /\
  length sample_partial < 8 /\
  (Z.of_nat (length sample_partial) <= INT_MAX)%Z /\
  token_trace 8 8 (reader_of_string sample_partial) =
    ([(token.mk token_kind.keyword 0 0, bytes "ab");
      (token.mk token_kind.whitespace 0 2, bytes " ")],
     threw leading_zeros_are_not_allowed) /\
  let '(l, e) := token_trace 8 8 (reader_of_string sample_partial) in
  positioned (0, 0)%Z l /\
  ends_as (tokens 8 8 (reader_of_string sample_partial)) l e /\
  exists tl, sample_partial = concat (map snd l) ++ tl /\ stops_at e tl.
Proof.
  assert (N : sample_partial <> []) by discriminate.
  assert (Q : no_quote sample_partial = true) by reflexivity.
  assert (L : length sample_partial < 8) by (vm_compute; lia).
  assert (B : (Z.of_nat (length sample_partial) <= INT_MAX)%Z)
    by (vm_compute; discriminate).
  split; [exact N | split; [exact Q | split; [exact L | split; [exact B|]]]].
  split; [reflexivity|].
  apply (token_positions sample_partial 8 8 N Q L L B).
Defined.

(** ** Inputs that are one token *)

Lemma take_while_id p l :
  forallb p l = true -> take_while p l = l /\ drop_while p l = [].
Proof.
  induction l as [|c l IH]; cbn; [now split|].
  intros H. apply andb_true_iff in H as [-> H].
  destruct (IH H) as [-> ->]. now split.
Qed.

Lemma rest_nil_invalid r : rest r = [] -> valid r = false.
Proof.
  intros E. destruct (cursor_cases r) as [[V _]|[_ E']]; [exact V|].
  congruence.
Qed.

Lemma tokens_single calls fuel r t lexeme r' :
  next_token fuel r = Val (t, lexeme) r' ->
  token.kind t <> token_kind.eof -> rest r' = [] ->
  tokens (S (S calls)) fuel r = Val [(t, lexeme)] r'.
Proof.
  intros E K R. cbn [tokens]. rewrite E. cbn [bind].
  rewrite (next_token_eof fuel r' (rest_nil_invalid _ R)). cbn [bind].
  now destruct (token.kind t).
Qed.

(** X10: an in-memory input made of whitespace bytes only is one whitespace
    token at (0, 0) whose lexeme is the whole input, followed by [eof];
    the reader ends at the position the input spells out. *)
Theorem whitespace_only_input (s : list byte) (calls fuel : nat) :
  s <> [] -> forallb isspace s = true -> length s < fuel ->
  exists r',
    tokens (S (S calls)) fuel (reader_of_string s) =
      Val [(token.mk token_kind.whitespace 0 0, s)] r' /\
    (line r', col r') = spec_position s (0, 0)%Z.
Proof.
  intros N W F. destruct s as [|c s]; [congruence|].
  set (r0 := reader_of_string (c :: s)).
  assert (Wc : isspace (peek r0) = true)
    by (cbn in W; now apply andb_true_iff in W as [W _]).
  destruct (next_token_whitespace fuel r0 eq_refl eq_refl Wc F)
    as (r' & E & P & R).
  change (rest r0) with (c :: s) in *.
  destruct (take_while_id isspace (c :: s) W) as [T D]. rewrite T, D in *.
  exists r'. split; [|exact P].
  now apply tokens_single.
Qed.

Lemma whitespace_only_input_witness :
  [" "; "009"; LF; "013"; " "] <> [] /\
  forallb isspace [" "; "009"; LF; "013"; " "] = true /\
  exists r',
    tokens 2 6 (reader_of_string [" "; "009"; LF; "013"; " "]) =
      Val [(token.mk token_kind.whitespace 0 0,
            [" "; "009"; LF; "013"; " "])] r' /\
    (line r', col r') = (1, 2)%Z.
Proof.
  assert (N : [" "; "009"; LF; "013"; " "] <> []) by discriminate.
  assert (W : forallb isspace [" "; "009"; LF; "013"; " "] = true)
    by reflexivity.
  split; [exact N | split; [exact W|]].
  apply (whitespace_only_input [" "; "009"; LF; "013"; " "] 0 6 N W).
  cbn. lia.
Defined.

Lemma spec_number_digits c s :
  forallb isdigit (c :: s) = true -> (c =? "0") = false \/ s = [] ->
  spec_number (c :: s) = Number token_kind.integer (c :: s) [].
Proof.
  intros D Z. unfold spec_number, spec_integer_part.
  destruct (take_while_id isdigit (c :: s) D) as [T Dr].
  assert (Dc : isdigit c = true)
    by (cbn in D; now apply andb_true_iff in D as [D _]).
  destruct (c =? "0") eqn:Z0.
  - destruct Z as [Z | ->]; [discriminate|]. reflexivity.
  - rewrite Dc, T, Dr. cbn. now rewrite app_nil_r.
Qed.

(** X11: an in-memory input made of digits only, not starting with 0 unless it
    is the single digit 0, is one integer token at (0, 0) whose lexeme is
    the whole input, however long, followed by [eof]. *)
Theorem digits_only_input (s : list byte) (calls fuel : nat) :
  s <> [] -> forallb isdigit s = true ->
  (hd NUL s =? "0") = false \/ s = ["0"] ->
  length s < fuel ->
  tokens (S (S calls)) fuel (reader_of_string s) =
    Val [(token.mk token_kind.integer 0 0, s)]
        (skip (length s) (reader_of_string s)).
Proof.
  intros N D Z F. destruct s as [|c s]; [congruence|].
  set (r0 := reader_of_string (c :: s)).
  assert (Dc : isdigit (peek r0) = true)
    by (cbn in D; now apply andb_true_iff in D as [D _]).
  assert (S : spec_number (rest r0) = Number token_kind.integer (c :: s) []).
  { apply spec_number_digits; [exact D|].
    destruct Z as [Z | Z]; [now left | right; congruence]. }
  assert (E : next_token fuel r0 =
              Val (token.mk token_kind.integer 0 0, c :: s)
                  (skip (length (c :: s)) r0)).
  { unfold next_token. change (valid r0) with true. cbn [negb fst snd].
    destruct (digit_class _ Dc) as (-> & -> & -> & -> & ->). cbn [orb].
    rewrite Dc, read_number_spec by (trivial; exact F).
    now rewrite S. }
  apply tokens_single; [exact E | discriminate|].
  rewrite rest_skip. apply skipn_all.
Qed.

Lemma digits_only_input_witness :
  repeat "9" 40 <> [] /\ forallb isdigit (repeat "9" 40) = true /\
  length (repeat "9" 40) < 41 /\
  tokens 2 41 (reader_of_string (repeat "9" 40)) =
    Val [(token.mk token_kind.integer 0 0, repeat "9" 40)]
        (skip (length (repeat "9" 40)) (reader_of_string (repeat "9" 40))).
Proof.
  assert (N : repeat "9" 40 <> []) by discriminate.
  assert (D : forallb isdigit (repeat "9" 40) = true) by reflexivity.
  assert (F : length (repeat "9" 40) < 41) by (vm_compute; lia).
  split; [exact N | split; [exact D | split; [exact F|]]].
  apply (digits_only_input (repeat "9" 40) 0 41 N D (or_introl eq_refl) F).
Defined.

(** ** String literals without escapes *)





(** ** Unicode escapes *)

Lemma hex_value_range c :
  isxdigit c = true -> (0 <= hex_value c < 16)%Z.
Proof.
  destruct c as [[] [] [] [] [] [] [] []]; intros H;
    try discriminate H; cbv; split; (discriminate || reflexivity).
Qed.

Lemma stoi16_fold_bound : forall l acc k,
  forallb isxdigit l = true -> (0 <= acc < 16 ^ Z.of_nat k)%Z ->
  (0 <= fold_left (fun a c => (a * 16 + hex_value c)%Z) l acc
     < 16 ^ Z.of_nat (k + length l))%Z.
Proof.
  induction l as [|c l IH]; intros acc k X A.
  - cbn. now rewrite Nat.add_0_r.
  - cbn [forallb] in X. apply andb_true_iff in X as [Xc X].
    pose proof (hex_value_range c Xc) as Hc.
    cbn [fold_left length].
    replace (k + S (length l)) with (S k + length l) by lia.
    apply IH; [exact X|].
    rewrite Nat2Z.inj_succ, Z.pow_succ_r by lia. lia.
Qed.

Lemma stoi16_bound l :
  forallb isxdigit l = true ->
  (0 <= stoi16 l < 16 ^ Z.of_nat (length l))%Z.
Proof.
  intros X. apply (stoi16_fold_bound l 0%Z 0 X). cbn. lia.
Qed.

Lemma to_bytes_length cp :
  (0 <= cp < 65536)%Z -> 1 <= length (to_bytes cp) <= 3.
Proof.
  intros H. unfold to_bytes.
  destruct (cp <? 128)%Z; [cbn; lia|].
  destruct (cp <? 2048)%Z; [cbn; lia|].
  destruct (cp <? 65536)%Z eqn:E; [cbn; lia|].
  apply Z.ltb_ge in E. lia.
Qed.

(** X13: a [u] escape that is accepted has read exactly the four bytes after
    the [u], all hexadecimal digits; its code point is below 0x10000 (the
    conversion by [std::stoi] cannot overflow), and it adds between one and
    three bytes to the decoded value.  The cursor is left on the fourth
    digit. *)
Theorem unicode_escape_bytes (r : reader) (bs : list byte) (r' : reader) :
  idle r = true ->
  read_escape r "u" = Val bs r' ->
  let hex := firstn 4 (rest (skip 1 r)) in
  length hex = 4 /\ forallb isxdigit hex = true /\
  (0 <= stoi16 hex < 65536)%Z /\
  bs = to_bytes (stoi16 hex) /\ 1 <= length bs <= 3 /\
  r' = skip 4 r.
Proof.
  intros I E hex. rewrite read_escape_cases in E.
  change ("u" =? "u") with true in E. cbv iota in E.
  pose proof (read_hex_spec 4 r [] I) as H. fold hex in H.
  destruct (4 <=? length (rest (skip 1 r)))%nat eqn:L;
    cbn [andb] in H;
    [|destruct H as [m H]; rewrite H in E; discriminate].
  destruct (forallb isxdigit hex) eqn:X;
    [|destruct H as [m H]; rewrite H in E; discriminate].
  rewrite H in E. cbn [bind app] in E. injection E as <- <-.
  apply Nat.leb_le in L.
  assert (Lh : length hex = 4) by (unfold hex; rewrite length_firstn; lia).
  pose proof (stoi16_bound hex X) as B. rewrite Lh in B.
  change (16 ^ Z.of_nat 4)%Z with 65536%Z in B.
  repeat split; trivial; try lia; now apply to_bytes_length.
Qed.

Lemma unicode_escape_bytes_witness :
  idle (skip 1 sample_escape) = true /\
  read_escape (skip 1 sample_escape) "u" =
    Val ["226"; "130"; "172"] (skip 5 sample_escape) /\
  (0 <= stoi16 (bytes "20aC") < 65536)%Z.
Proof.
  assert (E : read_escape (skip 1 sample_escape) "u" =
              Val ["226"; "130"; "172"] (skip 5 sample_escape))
    by reflexivity.
  split; [reflexivity | split; [exact E|]].
  apply (proj1 (proj2 (proj2
           (unicode_escape_bytes (skip 1 sample_escape) _ _ eq_refl E)))).
Defined.

(** ** File-backed readers *)

(** A valid cursor of a reachable reader is the cursor of an idle one. *)
Lemma reachable_window_inv r : reachable r -> window_inv r.
Proof.
  induction 1 as [s | file size r _ E | fuel r a r' _ IH E
                 | fuel r e r' _ IH E | fuel r m a r' _ IH E
                 | r p l c r' _ IH E | r p l c e r' _ IH E].
  - apply window_inv_reader_of_string.
  - now apply window_inv_reader_of_path in E.
  - pose proof (inv_next_token fuel r IH) as N. now rewrite E in N.
  - pose proof (inv_next_token fuel r IH) as N. now rewrite E in N.
  - pose proof (kept_readln window_inv window_inv_next
                  (fun r l => window_inv_frame r (set_line r l)
                                eq_refl eq_refl eq_refl)
                  (fun r c => window_inv_frame r (set_col r c)
                                eq_refl eq_refl eq_refl)
                  fuel r m IH) as N.
    now rewrite E in N.
  - pose proof (inv_jump_to r p l c IH) as N. now rewrite E in N.
  - pose proof (inv_jump_to r p l c IH) as N. now rewrite E in N.
Qed.

Lemma reachable_valid_idle r :
  reachable r -> valid r = true -> idle r = true.
Proof. intros R. apply window_inv_idle. now apply reachable_window_inv. Qed.





(** X14: no lexeme is read across a refill: on every reader built through the
    constructors (a file read in chunks that fit the window's inline
    storage), [next_token], [readln] and [jump_to], a valid cursor means
    the stream cannot refill the window, so [refill_buffer] changes nothing
    and [next] only moves [shift] and [col] by one. *)
Theorem valid_cursor_never_refills (r : reader) :
  reachable r -> valid r = true ->
  refill_buffer r = r /\ next r = skip 1 r /\
  rest r = peek r :: rest (next r).
Proof.
  intros R V. pose proof (reachable_valid_idle r R V) as I.
  split; [now apply refill_buffer_idle|].
  split; [now apply next_idle|].
  rewrite next_idle by exact I. now apply rest_valid.
Qed.

Lemma valid_cursor_never_refills_witness :
  reachable sample_file /\ valid sample_file = true /\
  refill_buffer sample_file = sample_file /\
  next sample_file = skip 1 sample_file.
Proof.
  assert (S : fits_inline (bytes "abc") 4096) by (vm_compute; discriminate).
  assert (R : reachable sample_file)
    by (apply (reach_path (bytes "abc") 4096 sample_file S); reflexivity).
  split; [exact R | split; [reflexivity|]].
  destruct (valid_cursor_never_refills sample_file R eq_refl) as (A & B & _).
  split; [exact A | exact B].
Defined.


